(** * Wordle solver: constraint tracking and candidate ranking

    A shallow embedding of [solver.py] (class [Solver]) and the properties
    of its knowledge base, its candidate filter, its weight heuristic and its
    guess loop. *)

From Stdlib Require Import ZArith Ascii String List Lia Sorting.Permutation.
From stdpp Require Import base list gmap strings sorting.

Local Open Scope Z_scope.
Local Open Scope list_scope.

#[local] Set Warnings "-clear-no-such-hyp".

(** ** Python values used by the solver *)

(** A Python [str] is a sequence of characters; a character is a string of
    length one.  Characters are [ascii], strings are lists of them. *)
Abbreviation letter := ascii.
Abbreviation pystr := (list ascii).

Definition str (s : string) : pystr := list_ascii_of_string s.

(** Exceptions the solver can raise.  [NoWordsLeft] is the
    [IndexError("No words left!")] raised on purpose by
    [get_min_weight_count]; [IndexOutOfRange] is the [IndexError] of a
    subscript out of range or of [random.choice] on an empty sequence;
    [ReError] is [re.error] from [re.compile]. *)
Inductive exn := NoWordsLeft | IndexOutOfRange | ReError.

Inductive result (A : Type) :=
| Ok (a : A)
| Raise (e : exn).
Arguments Ok {A} a.
Arguments Raise {A} e.

#[global] Instance result_ret : MRet result := λ A a, Ok a.
#[global] Instance result_bind : MBind result := λ A B k r,
  match r with
  | Ok a => k a
  | Raise e => Raise e
  end.

#[global] Instance result_fmap : FMap result := λ A B f r,
  match r with
  | Ok a => Ok (f a)
  | Raise e => Raise e
  end.

(** [seq[i]] for a non-negative index. *)
Definition subscript {A} (l : list A) (i : nat) : result A :=
  match l !! i with
  | Some a => Ok a
  | None => Raise IndexOutOfRange
  end.

(** ** The solver object *)

Record Solver := mkSolver {
  correct_letters : list (option letter);
  present_letters : gmap letter (gset nat);
  absent_letters : gset letter;
  auto : bool;
  words : list (pystr * Z)
}.

(** ** Levenshtein distance *)

(** Modelled from the spec: [Levenshtein.distance] comes from the
    python-Levenshtein package, which is imported by [solver.py] and is not
    part of the sources.  It is the edit distance with unit-cost insertions,
    deletions and substitutions, computed by the usual recurrence on the two
    heads. *)
Fixpoint distance (s t : pystr) : nat :=
  match s with
  | [] => length t
  | a :: s' =>
      (fix inner (t : pystr) : nat :=
         match t with
         | [] => length s
         | b :: t' =>
             Nat.min (S (distance s' t))
               (Nat.min (S (inner t'))
                  ((if decide (a = b) then 0 else 1) + distance s' t'))%nat
         end) t
  end.

(** ** [Solver.get_word_weight] *)

(** ["".join(map(lambda c: c if c else "0", self.correct_letters))] *)
Definition padded (cl : list (option letter)) : pystr :=
  map (λ c, match c with Some x => x | None => "0"%char end) cl.

(** The loop [for letter in self.present_letters: if letter in word:
    weight -= 1] runs over the keys of the dict. *)
Definition get_word_weight (self : Solver) (word : pystr) : Z :=
  map_fold (λ (letter : letter) (_ : gset nat) (weight : Z),
              if decide (letter ∈ word) then weight - 1 else weight)
    (Z.of_nat (distance word (padded (correct_letters self))))
    (present_letters self).

(** ** Regular expressions: the fragment of [re] the solver's patterns use *)

(** A compiled pattern is a sequence of atoms that consume one character
    each: a literal, or a character set [[...]] / [[^...]] made of ranges
    (a single character [c] is the range [c-c]). *)
Inductive atom :=
| Lit (c : ascii)
| CharSet (negate : bool) (items : list (ascii * ascii)).

Definition is_char (x : ascii) (c : ascii) : bool := bool_decide (x = c).

Definition char_in (c : ascii) (cs : string) : bool :=
  bool_decide (c ∈ str cs).

(** Characters with a special meaning outside and inside a character set. *)
Definition re_special (c : ascii) : bool := char_in c ".^$*+?{}[]\|()".
Definition set_special (c : ascii) : bool := char_in c "\[]^-".

Definition char_le (a b : ascii) : bool := (nat_of_ascii a <=? nat_of_ascii b)%nat.

Inductive parse_state :=
| Top
| InSet (negate : bool) (items : list (ascii * ascii)).

(** [re.compile] on the fragment: literal characters that are not special,
    and character sets whose members are plain characters or ranges of plain
    characters.  Anything else gives [None]: a pattern [re] rejects (an
    unterminated set, a reversed range), and also syntax of [re] that is left
    out here (escapes, quantifiers, groups, special characters inside a
    set).  Patterns built from lowercase letters stay inside the fragment. *)
Fixpoint re_parse (st : parse_state) (s : pystr) : option (list atom) :=
  match st, s with
  | Top, [] => Some []
  | Top, c :: s1 =>
      if is_char c "[" then
        match s1 with
        | d :: s2 =>
            if is_char d "^" then re_parse (InSet true []) s2
            else re_parse (InSet false []) s1
        | [] => None
        end
      else if re_special c then None
      else cons (Lit c) <$> re_parse Top s1
  | InSet _ _, [] => None
  | InSet negate items, c :: s1 =>
      if is_char c "]" then
        match items with
        | [] => None
        | _ => cons (CharSet negate (rev items)) <$> re_parse Top s1
        end
      else if set_special c then None
      else
        match s1 with
        | d :: e :: s2 =>
            if is_char d "-" then
              if set_special e then None
              else if char_le c e then re_parse (InSet negate ((c, e) :: items)) s2
              else None
            else re_parse (InSet negate ((c, c) :: items)) s1
        | _ => re_parse (InSet negate ((c, c) :: items)) s1
        end
  end.

(** Outside the fragment the model stops with [ReError], whether or not
    [re] would accept the pattern. *)
Definition re_compile (pattern : pystr) : result (list atom) :=
  match re_parse Top pattern with
  | Some p => Ok p
  | None => Raise ReError
  end.

Definition in_range (c : ascii) (r : ascii * ascii) : bool :=
  char_le r.1 c && char_le c r.2.

Definition atom_match (a : atom) (c : ascii) : bool :=
  match a with
  | Lit x => is_char x c
  | CharSet negate items => xorb negate (existsb (in_range c) items)
  end.

(** [re.match(pattern, string)]: the pattern must match at the start of the
    string; what follows the match is not looked at. *)
Fixpoint re_match (p : list atom) (s : pystr) : bool :=
  match p, s with
  | [], _ => true
  | a :: p', c :: s' => atom_match a c && re_match p' s'
  | _ :: _, [] => false
  end.

(** ** [list.sort(key=lambda x: x[1])] *)

(** Python's sort is stable: entries of equal weight keep their order.  A
    stable sort has one possible result, computed here by insertion. *)
Fixpoint insert_by_weight (x : pystr * Z) (l : list (pystr * Z)) : list (pystr * Z) :=
  match l with
  | [] => [x]
  | y :: l' => if x.2 <=? y.2 then x :: y :: l' else y :: insert_by_weight x l'
  end.

Definition sort_by_weight (l : list (pystr * Z)) : list (pystr * Z) :=
  foldr insert_by_weight [] l.

(** ** [Solver.__init__] *)

Definition set_words (self : Solver) (ws : list (pystr * Z)) : Solver :=
  mkSolver (correct_letters self) (present_letters self) (absent_letters self)
    (auto self) ws.

(** [lines] is [f.read().splitlines()] of [words.txt]. *)
Definition init (auto : bool) (lines : list pystr) : Solver :=
  let self := mkSolver (replicate 5 None) ∅ ∅ auto [] in
  set_words self (sort_by_weight (map (λ w, (w, get_word_weight self w)) lines)).

(** ** [Solver.update_word_weights] *)

(** The set [exclude] built for position [i]: the present letters whose
    excluded positions contain [i], then [exclude.update(self.absent_letters)]. *)
Definition exclude_at (self : Solver) (i : nat) : gset letter :=
  dom (filter (λ kv, i ∈ kv.2) (present_letters self)) ∪ absent_letters self.

(** The piece of the pattern appended for position [i].  The order in which
    ["".join(exclude)] lists a set is the set's iteration order. *)
Definition pattern_part (self : Solver) (i : nat) : result pystr :=
  c ← subscript (correct_letters self) i;
  match c with
  | Some x => Ok [x]
  | None =>
      let exclude := exclude_at self i in
      if decide (exclude = ∅) then Ok (str "[a-z]")
      else Ok (str "[^" ++ elements exclude ++ str "]")
  end.

Definition build_pattern (self : Solver) : result pystr :=
  parts ← mapM (pattern_part self) (seq 0 5);
  Ok (List.concat parts).

Definition update_word_weights (self : Solver) : result Solver :=
  pattern ← build_pattern self;
  pattern ← re_compile pattern;
  Ok (set_words self
        (sort_by_weight
           (map (λ w, (w.1, get_word_weight self w.1))
              (List.filter (λ w, re_match pattern w.1) (words self))))).

(** ** [Solver.get_min_weight_count] *)

(** The [for idx, (_, word_weight) in enumerate(self.words)] loop; the result
    is the value of [idx] when the loop is left, [i] being the next index and
    [idx] the last value assigned. *)
Fixpoint enumerate_loop (min_weight : Z) (l : list (pystr * Z)) (i idx : nat) : nat :=
  match l with
  | [] => idx
  | (_, word_weight) :: l' =>
      if word_weight >? min_weight then i
      else enumerate_loop min_weight l' (S i) i
  end.

Definition get_min_weight_count (self : Solver) : result nat :=
  match words self with
  | [] => Raise NoWordsLeft
  | (_, min_weight) :: _ =>
      let idx := enumerate_loop min_weight (words self) 0 0 in
      Ok ((if decide (idx = 0%nat) then 0 else idx) + 1)%nat
  end.

(** ** Recording the feedback of a guess *)

(** [self.correct_letters[i] = c] *)
Definition set_correct (self : Solver) (i : nat) (c : letter) : result Solver :=
  if decide (i < length (correct_letters self))%nat then
    Ok (mkSolver (<[i := Some c]> (correct_letters self)) (present_letters self)
          (absent_letters self) (auto self) (words self))
  else Raise IndexOutOfRange.

(** [self.present_letters.setdefault(c, set()).add(i)] *)
Definition add_present (self : Solver) (c : letter) (i : nat) : Solver :=
  mkSolver (correct_letters self)
    (<[c := {[ i ]} ∪ default ∅ (present_letters self !! c)]> (present_letters self))
    (absent_letters self) (auto self) (words self).

(** [self.absent_letters.add(c)] *)
Definition add_absent (self : Solver) (c : letter) : Solver :=
  mkSolver (correct_letters self) (present_letters self)
    ({[ c ]} ∪ absent_letters self) (auto self) (words self).

(** One round of the [for i in range(5)] loop of [solve_word], which
    compares the guess with the known word. *)
Definition solve_word_tile (word guess : pystr) (self : Solver) (i : nat)
  : result Solver :=
  g ← subscript guess i;
  w ← subscript word i;
  if decide (g = w) then set_correct self i g
  else if decide (g ∈ word) then Ok (add_present self g i)
  else Ok (add_absent self g).

Fixpoint for_range (body : Solver → nat → result Solver) (idxs : list nat)
    (self : Solver) : result Solver :=
  match idxs with
  | [] => Ok self
  | i :: idxs' => self' ← body self i; for_range body idxs' self'
  end.

Definition solve_word_record (word guess : pystr) (self : Solver) : result Solver :=
  for_range (solve_word_tile word guess) (seq 0 5) self.

(** One round of the tile loop of [solve_wordle], for a tile whose
    [evaluation] attribute is the non-empty string [evaluation]. *)
Definition solve_wordle_tile (guess : pystr) (evaluation : string)
    (self : Solver) (i : nat) : result Solver :=
  if decide (evaluation = "correct"%string) then
    g ← subscript guess i; set_correct self i g
  else if decide (evaluation = "present"%string) then
    g ← subscript guess i; Ok (add_present self g i)
  else
    g ← subscript guess i; Ok (add_absent self g).

(** The tile loop of [solve_wordle]: [tiles i] is what
    [tile.get_attribute("evaluation")] returns for tile [i].  The result
    carries [is_valid_guess]; a tile without evaluation leaves the loop. *)
Fixpoint solve_wordle_record (guess : pystr) (tiles : nat → option string)
    (idxs : list nat) (self : Solver) : result (Solver * bool) :=
  match idxs with
  | [] => Ok (self, true)
  | i :: idxs' =>
      match tiles i with
      | None | Some EmptyString => Ok (self, false)
      | Some evaluation =>
          self' ← solve_wordle_tile guess evaluation self i;
          solve_wordle_record guess tiles idxs' self'
      end
  end.

(** ** The guess loop of [solve_word] *)

(** Values compared by [guess.lower() not in self.words]: the left operand
    is a [str], the list holds [(word, weight)] tuples.  A [str] and a tuple
    are never equal. *)
Inductive pyval :=
| PyStr (s : pystr)
| PyTuple (w : pystr) (weight : Z).

Definition py_eq (x y : pyval) : bool :=
  match x, y with
  | PyStr a, PyStr b => bool_decide (a = b)
  | PyTuple a n, PyTuple b m => bool_decide (a = b) && (n =? m)
  | _, _ => false
  end.

Definition py_in (x : pyval) (l : list pyval) : bool := existsb (py_eq x) l.

Definition lower_char (c : ascii) : ascii :=
  let n := nat_of_ascii c in
  if (65 <=? n)%nat && (n <=? 90)%nat then ascii_of_nat (n + 32) else c.

Definition lower (s : pystr) : pystr := map lower_char s.

(** [random.choice(seq)], the random index being drawn from [rnd]. *)
Definition random_choice {A} (rnd : nat) (l : list A) : result A :=
  subscript l (rnd mod length l).

(** [all(self.correct_letters)] *)
Definition all_correct (self : Solver) : bool :=
  forallb (λ c : option letter, bool_decide (is_Some c)) (correct_letters self).

(** ["".join(self.correct_letters)], evaluated only after [all] held, when
    every entry is a letter. *)
Definition join_correct (self : Solver) : pystr :=
  omap id (correct_letters self).

Inductive iteration :=
| Continue (self : Solver) (guess_count : nat)
| Return (self : Solver) (answer : pystr).

(** The part of the loop body after a guess was accepted. *)
Definition solve_word_accept (word guess : pystr) (self : Solver)
    (guess_count : nat) : result iteration :=
  self ← solve_word_record word guess self;
  let guess_count := S guess_count in
  if all_correct self then Ok (Return self (join_correct self))
  else Ok (Continue self guess_count).

(** One pass through the body of [while guess_count < 6]; [entered] is what
    [input] returns (read only when [self.auto] is off) and [rnd] the random
    draw. *)
Definition solve_word_body (word : pystr) (self : Solver) (guess_count : nat)
    (entered : pystr) (rnd : nat) : result iteration :=
  let guess := if auto self then str "0" else entered in
  if decide (guess = str "0") then
    self ← update_word_weights self;
    n ← get_min_weight_count self;
    choice ← random_choice rnd (take n (words self));
    solve_word_accept word choice.1 self guess_count
  else if bool_decide (length guess ≠ 5%nat)
          && negb (py_in (PyStr (lower guess))
                     (map (λ w, PyTuple w.1 w.2) (words self))) then
    Ok (Continue self guess_count)
  else solve_word_accept word guess self guess_count.

Inductive outcome :=
| Answer (self : Solver) (answer : pystr)
| NoAnswer (self : Solver)
| AwaitInput (self : Solver) (guess_count : nat).

(** The loop, run on the entries and random draws in [io]; it ends with the
    answer, with the six guesses used up ([None] is returned), or, when [io]
    is used up, waiting for the next entry or draw. *)
Fixpoint solve_word (word : pystr) (self : Solver) (guess_count : nat)
    (io : list (pystr * nat)) : result outcome :=
  if decide (guess_count < 6)%nat then
    match io with
    | [] => Ok (AwaitInput self guess_count)
    | (entered, rnd) :: io' =>
        it ← solve_word_body word self guess_count entered rnd;
        match it with
        | Continue self guess_count => solve_word word self guess_count io'
        | Return self answer => Ok (Answer self answer)
        end
    end
  else Ok (NoAnswer self).

(** ** The guess loop of [solve_wordle] *)

(** What the loop does to the page: [page.type("html", text)] and
    [page.press("html", key=...)]. *)
Inductive page_action :=
| PageType (text : pystr)
| PagePress (key : string).

(** The part of the loop body from typing the guess on: [row guess i] is the
    [evaluation] attribute the page shows on tile [i] of the current row once
    [guess] was typed and entered.  A row left by the tile loop is taken back
    with five presses of Backspace. *)
Definition solve_wordle_submit (guess : pystr) (self : Solver)
    (guess_count : nat) (row : pystr → nat → option string)
  : result (iteration * list page_action) :=
  let typed := [PageType guess; PagePress "Enter"] in
  match solve_wordle_record guess (row guess) (seq 0 5) self with
  | Raise e => Raise e
  | Ok (self, is_valid_guess) =>
      if is_valid_guess then
        let guess_count := S guess_count in
        if all_correct self then Ok (Return self (join_correct self), typed)
        else Ok (Continue self guess_count, typed)
      else
        Ok (Continue self guess_count,
            typed ++ replicate 5 (PagePress "Backspace"))
  end.

(** One pass through the body of the [while guess_count < 6] of
    [solve_wordle], with the actions on the page. *)
Definition solve_wordle_body (self : Solver) (guess_count : nat)
    (entered : pystr) (rnd : nat) (row : pystr → nat → option string)
  : result (iteration * list page_action) :=
  let guess := if auto self then str "0" else entered in
  if decide (guess = str "0") then
    self ← update_word_weights self;
    n ← get_min_weight_count self;
    choice ← random_choice rnd (take n (words self));
    solve_wordle_submit choice.1 self guess_count row
  else if bool_decide (length guess ≠ 5%nat)
          && negb (py_in (PyStr (lower guess))
                     (map (λ w, PyTuple w.1 w.2) (words self))) then
    Ok (Continue self guess_count, [])
  else solve_wordle_submit guess self guess_count row.

(** The loop of [solve_wordle] (opening the page before it and closing the
    browser after it are left out), run on entries, draws and rows. *)
Fixpoint solve_wordle (self : Solver) (guess_count : nat)
    (io : list (pystr * nat * (pystr → nat → option string)))
  : result (outcome * list page_action) :=
  if decide (guess_count < 6)%nat then
    match io with
    | [] => Ok (AwaitInput self guess_count, [])
    | (entered, rnd, row) :: io' =>
        match solve_wordle_body self guess_count entered rnd row with
        | Raise e => Raise e
        | Ok (Continue self guess_count, actions) =>
            match solve_wordle self guess_count io' with
            | Raise e => Raise e
            | Ok (o, actions') => Ok (o, actions ++ actions')
            end
        | Ok (Return self answer, actions) => Ok (Answer self answer, actions)
        end
    end
  else Ok (NoAnswer self, []).

(** ** The tries of the main program *)

(** [Solver(True).solve_word(word)]: a new solver on the lines of
    [words.txt]; six draws are as many as the loop can use. *)
Definition main_try (lines : list pystr) (word : pystr) (draws : nat → nat)
  : result outcome :=
  solve_word word (init true lines) 0 (map (λ k, ([], draws k)) (seq 0 6)).

(** The value of [answer]: the answer, or [None]. *)
Definition answer_of (o : outcome) : option pystr :=
  match o with
  | Answer _ answer => Some answer
  | _ => None
  end.

(** [for _ in range(args.tries)], one stream of draws per try; the result is
    [success_count]. *)
Fixpoint main_tries (lines : list pystr) (word : pystr)
    (tries : list (nat → nat)) (success_count : nat) : result nat :=
  match tries with
  | [] => Ok success_count
  | draws :: tries' =>
      o ← main_try lines word draws;
      main_tries lines word tries'
        (if decide (answer_of o = Some word) then S success_count
         else success_count)
  end.

(** ** Specification-side notions *)

(** The number of leading entries of a ranked list whose weight is [m]. *)
Fixpoint leading (m : Z) (l : list (pystr * Z)) : nat :=
  match l with
  | [] => 0
  | e :: l' => if decide (e.2 = m) then S (leading m l') else 0
  end.

(** The number of leading entries sharing the first entry's weight. *)
Definition min_weight_prefix (l : list (pystr * Z)) : nat :=
  match l with
  | [] => 0
  | e :: _ => leading e.2 l
  end.

Definition by_weight (x y : pystr * Z) : Prop := x.2 ≤ y.2.

(** The feedback of one tile. *)
Inductive Tag := Correct | Present | Absent.

#[global] Instance Tag_eq_dec : EqDecision Tag.
Proof. solve_decision. Defined.

(** The tag [solve_wordle] reads from a tile's [evaluation] attribute. *)
Definition tag_of_attribute (evaluation : string) : Tag :=
  if decide (evaluation = "correct"%string) then Correct
  else if decide (evaluation = "present"%string) then Present
  else Absent.

(** The tag [solve_word] gives to letter [g] of the guess at position [i]. *)
Definition compare_tag (word : pystr) (g : letter) (i : nat) : Tag :=
  if decide (word !! i = Some g) then Correct
  else if decide (g ∈ word) then Present
  else Absent.

(** [recorded guess tags self self'] says that [self'] is [self] after the
    evaluation [tags] of [guess] was recorded, position by position: a
    [Correct] tag confirms the guessed letter there, a [Present] tag excludes
    the position for the guessed letter, an [Absent] tag makes the guessed
    letter absent; nothing else differs. *)
Record recorded (guess : pystr) (tags : list Tag) (self self' : Solver) : Prop := {
  recorded_length :
    length (correct_letters self') = length (correct_letters self);
  recorded_correct i :
    correct_letters self' !! i =
      if decide (tags !! i = Some Correct) then Some (guess !! i)
      else correct_letters self !! i;
  recorded_present_keys c :
    c ∈ dom (present_letters self') ↔
      c ∈ dom (present_letters self) ∨
      ∃ i, guess !! i = Some c ∧ tags !! i = Some Present;
  recorded_present c i :
    i ∈ default ∅ (present_letters self' !! c) ↔
      i ∈ default ∅ (present_letters self !! c) ∨
      (guess !! i = Some c ∧ tags !! i = Some Present);
  recorded_absent c :
    c ∈ absent_letters self' ↔
      c ∈ absent_letters self ∨
      ∃ i, guess !! i = Some c ∧ tags !! i = Some Absent;
  recorded_auto : auto self' = auto self;
  recorded_words : words self' = words self
}.

(** What happens to a solver between its creation and a query. *)
Inductive event :=
| Compared (word guess : pystr)
| Tiles (guess : pystr) (tiles : nat → option string)
| Filtered.

Definition apply_event (self : Solver) (ev : event) : result Solver :=
  match ev with
  | Compared word guess => solve_word_record word guess self
  | Tiles guess tiles => fst <$> solve_wordle_record guess tiles (seq 0 5) self
  | Filtered => update_word_weights self
  end.

Fixpoint run (evs : list event) (self : Solver) : result Solver :=
  match evs with
  | [] => Ok self
  | ev :: evs' => self' ← apply_event self ev; run evs' self'
  end.

(** An event agrees with the word [target] on confirmed letters when every
    tile it reports as correct carries the letter [target] has there. *)
Definition agrees_on_correct (target : pystr) (ev : event) : Prop :=
  match ev with
  | Compared word guess => word = target
  | Tiles guess tiles =>
      ∀ i, tiles i = Some "correct"%string → guess !! i = target !! i
  | Filtered => True
  end.

(** The three branches shared by the two recording loops, driven by a tag. *)
Definition record_tag (guess : pystr) (tags : list Tag) (self : Solver)
    (i : nat) : result Solver :=
  g ← subscript guess i;
  t ← subscript tags i;
  match t with
  | Correct => set_correct self i g
  | Present => Ok (add_present self g i)
  | Absent => Ok (add_absent self g)
  end.

(** *** Edit distance *)

(** One edit turns a string into another by inserting, deleting or
    substituting one character at any place. *)
Inductive edit1 : pystr → pystr → Prop :=
| edit1_insert pre b post : edit1 (pre ++ post) (pre ++ b :: post)
| edit1_delete pre a post : edit1 (pre ++ a :: post) (pre ++ post)
| edit1_substitute pre a b post : edit1 (pre ++ a :: post) (pre ++ b :: post).

(** [edit_path n s t]: [n] edits in a row turn [s] into [t]. *)
Inductive edit_path : nat → pystr → pystr → Prop :=
| edit_path_nil s : edit_path 0 s s
| edit_path_cons n s t u : edit1 s t → edit_path n t u → edit_path (S n) s u.

(** [d] is the Levenshtein distance of [s] and [t]: the least number of
    unit-cost edits that turn [s] into [t]. *)
Definition levenshtein (s t : pystr) (d : nat) : Prop :=
  edit_path d s t ∧ ∀ n, edit_path n s t → (d ≤ n)%nat.

(** An alignment of [s] with [t] read from left to right, with the number
    of its edits. *)
Inductive edits : pystr → pystr → nat → Prop :=
| edits_nil : edits [] [] 0
| edits_keep a s t n : edits s t n → edits (a :: s) (a :: t) n
| edits_substitute a b s t n : edits s t n → edits (a :: s) (b :: t) (S n)
| edits_delete a s t n : edits s t n → edits (a :: s) t (S n)
| edits_insert b s t n : edits s t n → edits s (b :: t) (S n).

(** Lowercase letters, the characters of words. *)
Definition is_letter (c : ascii) : Prop :=
  (97 ≤ nat_of_ascii c ≤ 122)%nat.

#[global] Instance is_letter_dec c : Decision (is_letter c).
Proof. unfold is_letter. apply _. Defined.

(** A word: five lowercase letters. *)
Definition is_word (w : pystr) : Prop :=
  length w = 5%nat ∧ Forall is_letter w.

(** The knowledge held by a solver is about letters, one slot per position. *)
Record kb_wf (self : Solver) : Prop := {
  kb_wf_length : length (correct_letters self) = 5%nat;
  kb_wf_correct i c : correct_letters self !! i = Some (Some c) → is_letter c;
  kb_wf_present c : c ∈ dom (present_letters self) → is_letter c;
  kb_wf_absent c : c ∈ absent_letters self → is_letter c
}.

(** The knowledge is consistent with [target]: confirmed letters are the
    letters of [target] at their positions, present letters occur in
    [target], absent letters do not. *)
Record consistent_with (target : pystr) (self : Solver) : Prop := {
  consistent_correct i c :
    correct_letters self !! i = Some (Some c) → target !! i = Some c;
  consistent_present c : c ∈ dom (present_letters self) → c ∈ target;
  consistent_absent c : c ∈ target → c ∉ absent_letters self
}.

(** The number of present letters (keys of the dict) that occur in [word]. *)
Definition present_in (self : Solver) (word : pystr) : nat :=
  size (filter (λ c, c ∈ word) (dom (present_letters self))).

(** The number of positions not yet confirmed. *)
Definition unknown (cl : list (option letter)) : nat :=
  length (filter (λ c, c = None) cl).

(** *** The matcher *)

(** [accepts self word]: at every position, [word] has the confirmed letter
    when there is one, and otherwise a letter that is not absent and for
    which the position is not excluded. *)
Definition accepts (self : Solver) (word : pystr) : Prop :=
  ∀ i, (i < 5)%nat →
    ∃ x, word !! i = Some x ∧
         match correct_letters self !! i with
         | Some (Some c) => (x = c)
         | _ => (x ∉ absent_letters self) ∧
                (i ∉ default ∅ (present_letters self !! x))
         end.

(** The atom the pattern has at position [i]. *)
Definition atom_at (self : Solver) (i : nat) : atom :=
  match correct_letters self !! i with
  | Some (Some x) => Lit x
  | _ =>
      if decide (exclude_at self i = ∅)
      then CharSet false [("a", "z")]%char
      else CharSet true (map (λ c, (c, c)) (elements (exclude_at self i)))
  end.

(** [self.words] after the body of [update_word_weights] ran with the
    compiled pattern [p]. *)
Definition filtered_words (self : Solver) (p : list atom) : list (pystr * Z) :=
  sort_by_weight
    (map (λ w, (w.1, get_word_weight self w.1))
       (List.filter (λ w, re_match p w.1) (words self))).

(** The tiles of a row whose [evaluation] attributes are listed in [l]. *)
Definition tiles_of (l : list string) : nat → option string := λ i, l !! i.

(** Every confirmed letter is the letter of [target] at its position. *)
Definition confirmed_from_target (target : pystr) (self : Solver) : Prop :=
  ∀ i c, correct_letters self !! i = Some (Some c) → target !! i = Some c.

(** Going from [self] to [self'] keeps what was confirmed. *)
Definition keeps_confirmed (target : pystr) (self self' : Solver) : Prop :=
  confirmed_from_target target self →
  confirmed_from_target target self' ∧
  ∀ i c, correct_letters self !! i = Some (Some c) →
         correct_letters self' !! i = Some (Some c).

(** The evaluation [solve_word] gives to a guess. *)
Definition compare_tags (word guess : pystr) : list Tag :=
  imap (λ i g, compare_tag word g i) guess.

(** The guesses of an event are words, and the word a guess is compared
    with has five characters. *)
Definition event_of_words (ev : event) : Prop :=
  match ev with
  | Compared word guess => is_word guess ∧ length word = 5%nat
  | Tiles guess tiles => is_word guess
  | Filtered => True
  end.

(** *** Notions used for the further properties *)

(** The first five characters of [w] exist and are lowercase letters. *)
Definition letter5 (w : pystr) : Prop :=
  ∀ i, (i < 5)%nat → ∃ c, w !! i = Some c ∧ is_letter c.

(** The knowledge of a solver that has recorded nothing yet. *)
Definition fresh (self : Solver) : Prop :=
  correct_letters self = replicate 5 None ∧
  present_letters self = ∅ ∧
  absent_letters self = ∅.

(** What the compiled pattern of [self] says of the string [x]. *)
Definition matches (self : Solver) (x : pystr) : bool :=
  re_match (map (atom_at self) (seq 0 5)) x.

(** The knowledge of [self'] extends that of [self]: confirmed positions
    stay confirmed (with whatever letter), excluded positions and absent
    letters are kept. *)
Record grows (self self' : Solver) : Prop := {
  grows_length :
    length (correct_letters self') = length (correct_letters self);
  grows_correct i :
    is_Some (correct_letters self !! i ≫= id) →
    is_Some (correct_letters self' !! i ≫= id);
  grows_present_keys :
    dom (present_letters self) ⊆ dom (present_letters self');
  grows_present c :
    default ∅ (present_letters self !! c)
      ⊆ default ∅ (present_letters self' !! c);
  grows_absent : absent_letters self ⊆ absent_letters self'
}.

(** The knowledge of [self] is true of the word [target]: confirmed letters
    are its letters, a letter with excluded positions occurs in it but not
    at those positions, absent letters do not occur in it. *)
Record true_of (target : pystr) (self : Solver) : Prop := {
  true_of_correct i c :
    correct_letters self !! i = Some (Some c) → target !! i = Some c;
  true_of_present_keys c : c ∈ dom (present_letters self) → c ∈ target;
  true_of_present c i :
    i ∈ default ∅ (present_letters self !! c) → target !! i ≠ Some c;
  true_of_absent c : c ∈ absent_letters self → c ∉ target
}.


(** What holds of the solver each time [solve_word] is about to obtain a
    guess for [word]: the knowledge is about letters and true of [word],
    [word] is a candidate, and the candidates begin with five letters (or
    nothing was recorded or filtered yet and guesses are automatic). *)
Record loop_inv (word : pystr) (self : Solver) : Prop := {
  loop_inv_wf : kb_wf self;
  loop_inv_true : true_of word self;
  loop_inv_word : word ∈ (words self).*1;
  loop_inv_letters :
    (auto self = true ∧ fresh self) ∨ Forall letter5 (words self).*1
}.

(** An entry typed at the prompt: ["0"], a word, or something of the wrong
    length. *)
Definition entry_ok (entered : pystr) : Prop :=
  entered = str "0" ∨ length entered ≠ 5%nat ∨ is_word entered.

(** What [solve_word] may end with when it does not raise: the word itself
    as answer, no answer after six guesses, or, with entries or draws used
    up, fewer than six guesses made. *)
Definition ends_well (word : pystr) (o : outcome) : Prop :=
  match o with
  | Answer _ answer => answer = word
  | NoAnswer _ => True
  | AwaitInput _ guess_count => (guess_count < 6)%nat
  end.



(** An event of [solve_word]: a guess that begins with five letters compared
    with [word], or a filtering step. *)
Definition compared_with (word : pystr) (ev : event) : Prop :=
  match ev with
  | Compared w guess => w = word ∧ letter5 guess
  | Tiles _ _ => False
  | Filtered => True
  end.

(** The candidate list of [self] is what a filter [q] leaves of [lines], and
    [q] lets through every line the current pattern matches. *)
Definition pruned_from (lines : list pystr) (self : Solver) : Prop :=
  ∃ q : pystr → bool,
    (words self).*1 ≡ₚ List.filter q lines ∧
    ∀ x, x ∈ lines → matches self x = true → q x = true.


(** A tile the page has not evaluated: no attribute, or an empty one. *)
Definition unevaluated (tile : option string) : Prop :=
  tile = None ∨ tile = Some ""%string.

(** The actions of a pass whose guess the page did not take. *)
Definition taken_back (guess : pystr) : list page_action :=
  [PageType guess; PagePress "Enter"] ++ replicate 5 (PagePress "Backspace").

(** The attribute the page shows for a tag. *)
Definition attribute_of (t : Tag) : string :=
  match t with
  | Correct => "correct"
  | Present => "present"
  | Absent => "absent"
  end.

(** A page that evaluates a guess the way [solve_word] compares it with
    [word]. *)
Definition compared_row (word : pystr) : pystr → nat → option string :=
  λ guess i,
    Some (attribute_of
            match guess !! i with
            | Some g => compare_tag word g i
            | None => Absent
            end).



(** Whether a try of the main program came back with an answer. *)
Definition try_answers (lines : list pystr) (word : pystr) (draws : nat → nat)
  : bool :=
  match main_try lines word draws with
  | Ok (Answer _ _) => true
  | _ => false
  end.


(** The number of candidates the next filtering step would keep. *)
Definition survivors (self : Solver) : nat :=
  length (List.filter (matches self) (words self).*1).


(** * Properties *)

(** ** [get_min_weight_count] *)

Lemma enumerate_loop_leading m l i idx :
  Sorted by_weight l → Forall (λ e, m ≤ e.2) l →
  enumerate_loop m l i idx =
    if decide (leading m l = length l)
    then (if decide (l = []) then idx else i + length l - 1)%nat
    else (i + leading m l)%nat.
Proof.
  revert i idx. induction l as [|[w k] l IH]; intros i idx Hs Hm; simpl.
  - done.
  - apply Sorted_inv in Hs as [Hs _]. apply Forall_cons in Hm as [Hk Hm].
    simpl in Hk. destruct (Z.gtb_spec k m) as [Hgt|Hle].
    + rewrite (decide_False (P := k = m)) by lia.
      rewrite decide_False by lia. lia.
    + rewrite (decide_True (P := k = m)) by lia.
      rewrite IH by done.
      destruct (decide (leading m l = length l)) as [He|Hne].
      * rewrite (decide_True (P := S _ = S _)) by lia.
        destruct l; simpl; lia.
      * rewrite (decide_False (P := S _ = S _)) by lia. lia.
Qed.

Lemma Sorted_by_weight_head e l :
  Sorted by_weight (e :: l) → Forall (λ x, e.2 ≤ x.2) (e :: l).
Proof.
  intros Hs. apply Sorted_StronglySorted in Hs.
  - apply StronglySorted_inv in Hs as [_ Hall]. constructor; [lia|done].
  - intros x y z. unfold by_weight. lia.
Qed.

(** On a ranked list the count is the length of the minimum-weight prefix
    when every entry has the minimum weight, and one more than that
    otherwise. *)
Lemma get_min_weight_count_sorted self :
  words self ≠ [] → Sorted by_weight (words self) →
  get_min_weight_count self =
    Ok (if decide (min_weight_prefix (words self) = length (words self))
        then length (words self)
        else S (min_weight_prefix (words self))).
Proof.
  unfold get_min_weight_count, min_weight_prefix.
  destruct (words self) as [|[w m] l] eqn:Hw; [done|]. intros _ Hs.
  rewrite enumerate_loop_leading;
    [|done|by apply (Sorted_by_weight_head (w, m))].
  f_equal.
  assert (∀ n, (if decide (n = 0) then 0 else n) = n)%nat as ->
    by (intros; case_decide; lia).
  rewrite (decide_False (P := _ :: _ = [])) by done.
  change ((w, m).2) with m. case_decide; simpl length; lia.
Qed.

(** C1, at an input where the code departs from it.  The word list is
    [glean], [noble], [angle] and the word to find is [angle].  After the
    first filtering step, the guess [glean] (all five letters present
    elsewhere) and the second filtering step, the ranked list is [angle] of
    weight 0 followed by [noble] of weight 2.  One leading entry has the
    minimum weight, yet [get_min_weight_count] answers 2: the prefix the
    guess is drawn from also holds [noble]. *)
Theorem get_min_weight_count_overshoots :
  ∃ self,
    run [Filtered; Compared (str "angle") (str "glean"); Filtered]
      (init true [str "glean"; str "noble"; str "angle"]) = Ok self ∧
    words self = [(str "angle", 0); (str "noble", 2)] ∧
    min_weight_prefix (words self) = 1%nat ∧
    get_min_weight_count self = Ok 2%nat ∧
    random_choice 1 (take 2 (words self)) = Ok (str "noble", 2).
Proof.
  eexists. split; [vm_compute; reflexivity|].
  split; [reflexivity|]. split; [reflexivity|]. split; reflexivity.
Qed.

(** ** The empty candidate list *)

Lemma get_min_weight_count_raises self e :
  get_min_weight_count self = Raise e → e = NoWordsLeft ∧ words self = [].
Proof.
  unfold get_min_weight_count. destruct (words self) as [|[w m] l]; [|done].
  by intros [= <-].
Qed.

(** C6.  On an empty candidate list [get_min_weight_count] raises the error
    it was written to raise, and no other; it raises in no other situation;
    and a pass of the guess loop that filters down to an empty list hands this
    error to the caller of [solve_word]. *)
Theorem get_min_weight_count_empty self :
  words self = [] →
  get_min_weight_count self = Raise NoWordsLeft ∧
  (∀ self', is_Some (head (words self')) →
            ∃ n, get_min_weight_count self' = Ok n) ∧
  (∀ word before guess_count entered rnd io,
     (auto before = true ∨ entered = str "0") →
     update_word_weights before = Ok self →
     (guess_count < 6)%nat →
     solve_word word before guess_count ((entered, rnd) :: io)
       = Raise NoWordsLeft).
Proof.
  intros Hw. split; [|split].
  - unfold get_min_weight_count. by rewrite Hw.
  - intros self' [[w m] Hh]. unfold get_min_weight_count.
    destruct (words self') as [|[w' m'] l]; [done|]. eauto.
  - intros word before n entered rnd io Hauto Hupd Hn. simpl.
    rewrite decide_True by done. unfold solve_word_body.
    assert ((if auto before then str "0" else entered) = str "0") as ->.
    { destruct Hauto as [-> | ->]; [done|]. by destruct (auto before). }
    rewrite decide_True by done. rewrite Hupd. simpl.
    unfold get_min_weight_count. by rewrite Hw.
Qed.

Lemma get_min_weight_count_empty_witness :
  get_min_weight_count (mkSolver (replicate 5 None) ∅ ∅ true [])
    = Raise NoWordsLeft.
Proof.
  apply (get_min_weight_count_empty (mkSolver (replicate 5 None) ∅ ∅ true [])).
  reflexivity.
Defined.

(** ** Recording an evaluation *)

Lemma for_range_app body idxs1 idxs2 self :
  for_range body (idxs1 ++ idxs2) self =
    for_range body idxs1 self ≫= for_range body idxs2.
Proof.
  revert self. induction idxs1 as [|i idxs1 IH]; intros self; [done|].
  simpl. destruct (body self i); simpl; [apply IH|done].
Qed.

Lemma for_range_ext body1 body2 idxs self :
  (∀ s i, i ∈ idxs → body1 s i = body2 s i) →
  for_range body1 idxs self = for_range body2 idxs self.
Proof.
  revert self. induction idxs as [|i idxs IH]; intros self Hext; [done|].
  simpl. rewrite Hext by left. destruct (body2 self i); simpl; [|done].
  apply IH. intros s j Hj. apply Hext. by right.
Qed.

Lemma subscript_Some {A} (l : list A) i x : l !! i = Some x → subscript l i = Ok x.
Proof. unfold subscript. by intros ->. Qed.

Lemma recorded_refl guess self : recorded guess [] self self.
Proof.
  split; try done.
  - intros c. split; [by left|]. intros [?|(i & _ & Hi)]; [done|].
    by rewrite lookup_nil in Hi.
  - intros c i. split; [by left|]. intros [?|[_ Hi]]; [done|].
    by rewrite lookup_nil in Hi.
  - intros c. split; [by left|]. intros [?|(i & _ & Hi)]; [done|].
    by rewrite lookup_nil in Hi.
Qed.

Lemma lookup_take_S_tag (tags : list Tag) k t i t' :
  tags !! k = Some t →
  take (S k) tags !! i = Some t' ↔
    take k tags !! i = Some t' ∨ (i = k ∧ t = t').
Proof.
  intros Hk. rewrite !lookup_take_Some. split.
  - intros [Hi Hlt]. destruct (decide (i = k)) as [->|]; [|left; split; [done|lia]].
    right. split; [done|congruence].
  - intros [[Hi Hlt]|[-> <-]]; (split; [done|lia]).
Qed.

(** Recording position [k] after positions [0 .. k-1]. *)
Lemma recorded_step guess tags self s1 s2 k :
  recorded guess (take k tags) self s1 →
  record_tag guess tags s1 k = Ok s2 →
  recorded guess (take (S k) tags) self s2.
Proof.
  intros [Hlen Hcor Hkeys Hpres Habs Hauto Hwords]. unfold record_tag.
  destruct (guess !! k) as [g|] eqn:Hg;
    [rewrite (subscript_Some _ _ _ Hg)|by unfold subscript; rewrite Hg].
  destruct (tags !! k) as [t|] eqn:Ht;
    [rewrite (subscript_Some _ _ _ Ht)|by unfold subscript; rewrite Ht].
  simpl. pose proof (lookup_take_S_tag tags k t) as Htake.
  specialize (λ i t', Htake i t' Ht).
  assert (∀ i, i ≠ k → take (S k) tags !! i = take k tags !! i) as Hother.
  { intros i Hi. apply option_eq. intros t'. rewrite Htake. naive_solver. }
  assert (take (S k) tags !! k = Some t) as Hat by (apply Htake; by right).
  assert (take k tags !! k = None) as Hnot by (by apply lookup_take_ge).
  destruct t.
  - (* Correct *)
    unfold set_correct. case_decide as Hk; [|done]. intros [= <-].
    split; simpl; try done.
    + by rewrite length_insert.
    + intros i. destruct (decide (i = k)) as [->|Hne].
      * rewrite list_lookup_insert_eq by done. rewrite Hat.
        rewrite decide_True by done. by rewrite Hg.
      * rewrite list_lookup_insert_ne by done. rewrite Hother by done. apply Hcor.
    + intros c. rewrite Hkeys. setoid_rewrite Htake. naive_solver.
    + intros c i. rewrite Hpres. rewrite Htake. naive_solver.
    + intros c. rewrite Habs. setoid_rewrite Htake. naive_solver.
  - (* Present *)
    intros [= <-]. split; simpl; try done.
    + intros i. rewrite Hcor. destruct (decide (i = k)) as [->|Hne].
      * rewrite Hat, Hnot. by rewrite !decide_False by done.
      * by rewrite Hother.
    + intros c. rewrite dom_insert_L, elem_of_union, elem_of_singleton, Hkeys.
      setoid_rewrite Htake. split.
      * intros [->|[?|(i & ? & ?)]]; [right; exists k|by left|right; exists i]; eauto.
      * intros [?|(i & Hi & [?|[-> _]])]; [eauto| |]; [right; right; eauto|].
        left. congruence.
    + intros c i. rewrite Htake. destruct (decide (c = g)) as [->|Hne].
      * rewrite lookup_insert_eq. simpl. rewrite elem_of_union, elem_of_singleton.
        rewrite Hpres. split; [|naive_solver].
        intros [->|[?|[? ?]]]; eauto.
      * rewrite lookup_insert_ne by done. rewrite Hpres. split; [naive_solver|].
        intros [?|[? [?|[-> _]]]]; [by left|by right|congruence].
    + intros c. rewrite Habs. setoid_rewrite Htake. naive_solver.
  - (* Absent *)
    intros [= <-]. split; simpl; try done.
    + intros i. rewrite Hcor. destruct (decide (i = k)) as [->|Hne].
      * rewrite Hat, Hnot. by rewrite !decide_False by done.
      * by rewrite Hother.
    + intros c. rewrite Hkeys. setoid_rewrite Htake. naive_solver.
    + intros c i. rewrite Hpres. rewrite Htake. naive_solver.
    + intros c. rewrite elem_of_union, elem_of_singleton, Habs.
      setoid_rewrite Htake. split.
      * intros [->|[?|(i & ? & ?)]]; [right; exists k|by left|right; exists i]; eauto.
      * intros [?|(i & Hi & [?|[-> _]])]; [eauto| |]; [right; right; eauto|].
        left. congruence.
Qed.

Lemma record_tags_recorded guess tags self k :
  (k ≤ length guess)%nat → (k ≤ length tags)%nat →
  (k ≤ length (correct_letters self))%nat →
  ∃ self', for_range (record_tag guess tags) (seq 0 k) self = Ok self' ∧
           recorded guess (take k tags) self self'.
Proof.
  induction k as [|k IH]; intros Hg Ht Hc.
  - exists self. split; [done|]. rewrite take_0. apply recorded_refl.
  - destruct IH as (s1 & Hrun & Hrec); [lia..|].
    assert (∃ s2, record_tag guess tags s1 k = Ok s2) as [s2 Hs2].
    { unfold record_tag.
      destruct (lookup_lt_is_Some_2 guess k) as [g Hgk]; [lia|].
      destruct (lookup_lt_is_Some_2 tags k) as [t Htk]; [lia|].
      rewrite (subscript_Some _ _ _ Hgk), (subscript_Some _ _ _ Htk). simpl.
      destruct t; eauto. unfold set_correct.
      rewrite decide_True; [eauto|]. rewrite (recorded_length _ _ _ _ Hrec). lia. }
    exists s2. split; [|by eapply recorded_step].
    rewrite seq_S, for_range_app, Hrun. simpl. by rewrite Hs2.
Qed.

Lemma solve_word_tile_tag word guess tags self i :
  (∀ g, guess !! i = Some g → tags !! i = Some (compare_tag word g i)) →
  is_Some (word !! i) →
  solve_word_tile word guess self i = record_tag guess tags self i.
Proof.
  intros Htags [w Hw]. unfold solve_word_tile, record_tag.
  destruct (guess !! i) as [g|] eqn:Hg;
    [rewrite (subscript_Some _ _ _ Hg)|by unfold subscript; rewrite Hg].
  rewrite (subscript_Some _ _ _ Hw), (subscript_Some _ _ _ (Htags g eq_refl)).
  simpl. unfold compare_tag. rewrite Hw.
  destruct (decide (g = w)) as [->|Hne].
  - by rewrite decide_True.
  - rewrite (decide_False (P := Some w = Some g)) by congruence.
    by case_decide.
Qed.

Lemma solve_wordle_tile_tag guess tags evaluation self i :
  tags !! i = Some (tag_of_attribute evaluation) →
  solve_wordle_tile guess evaluation self i = record_tag guess tags self i.
Proof.
  intros Ht. unfold solve_wordle_tile, record_tag, tag_of_attribute in *.
  destruct (guess !! i) as [g|] eqn:Hg.
  - rewrite (subscript_Some _ _ _ Hg), (subscript_Some _ _ _ Ht). simpl.
    by repeat case_decide.
  - unfold subscript. rewrite Hg. by repeat case_decide.
Qed.

Lemma solve_wordle_record_tags guess tiles tags idxs self :
  (∀ i, i ∈ idxs →
     ∃ evaluation, tiles i = Some evaluation ∧ evaluation ≠ ""%string ∧
                   tags !! i = Some (tag_of_attribute evaluation)) →
  solve_wordle_record guess tiles idxs self =
    (λ s, (s, true)) <$> for_range (record_tag guess tags) idxs self.
Proof.
  revert self. induction idxs as [|i idxs IH]; intros self Htiles; [done|].
  simpl. destruct (Htiles i) as (e & -> & Hne & Hti); [left|].
  destruct e as [|a e]; [done|].
  rewrite (solve_wordle_tile_tag _ tags) by done.
  destruct (record_tag guess tags self i); simpl; [|done].
  apply IH. intros j Hj. apply Htiles. by right.
Qed.

Lemma solve_word_record_tags word guess tags self :
  length guess = 5%nat → length tags = 5%nat → length word = 5%nat →
  length (correct_letters self) = 5%nat →
  (∀ i g, guess !! i = Some g → tags !! i = Some (compare_tag word g i)) →
  ∃ self', solve_word_record word guess self = Ok self' ∧
           recorded guess tags self self'.
Proof.
  intros Hg Ht Hw Hc Htags.
  destruct (record_tags_recorded guess tags self 5) as (self' & Hrun & Hrec);
    [lia..|].
  rewrite take_ge in Hrec by lia. exists self'. split; [|done].
  unfold solve_word_record. rewrite <- Hrun. apply for_range_ext.
  intros s i Hi. apply solve_word_tile_tag; [by apply Htags|].
  apply lookup_lt_is_Some_2. apply elem_of_seq in Hi. lia.
Qed.

Lemma solve_word_record_compare word guess self :
  length guess = 5%nat → length word = 5%nat →
  length (correct_letters self) = 5%nat →
  ∃ self', solve_word_record word guess self = Ok self' ∧
           recorded guess (compare_tags word guess) self self'.
Proof.
  intros Hg Hw Hc. apply solve_word_record_tags; try done.
  - unfold compare_tags. by rewrite length_imap.
  - intros i g Hi. unfold compare_tags. by rewrite list_lookup_imap, Hi.
Qed.

(** C5.  Both recording loops leave the solver exactly as the evaluation
    says.  For a 5-letter guess and the five tags of its evaluation, whether
    the tags are read from the tiles ([solve_wordle]) or come from comparing
    the guess with the word ([solve_word]): the loop runs through all five
    positions and ends in a solver that differs from the one before by the
    confirmed letters of the [Correct] positions, the excluded positions of
    the [Present] letters and the [Absent] letters, and by nothing else (the
    candidate list and the mode are the same).  The first query that follows,
    [all(self.correct_letters)], is made on that final solver. *)
Theorem record_evaluation_exact guess tags self :
  length guess = 5%nat → length tags = 5%nat →
  length (correct_letters self) = 5%nat →
  (∀ tiles,
     (∀ i, (i < 5)%nat →
        ∃ evaluation, tiles i = Some evaluation ∧ evaluation ≠ ""%string ∧
                      tags !! i = Some (tag_of_attribute evaluation)) →
     ∃ self', solve_wordle_record guess tiles (seq 0 5) self = Ok (self', true) ∧
              recorded guess tags self self') ∧
  (∀ word,
     length word = 5%nat →
     (∀ i g, guess !! i = Some g → tags !! i = Some (compare_tag word g i)) →
     ∃ self', solve_word_record word guess self = Ok self' ∧
              recorded guess tags self self' ∧
              ∀ guess_count,
                solve_word_accept word guess self guess_count =
                  Ok (if all_correct self'
                      then Return self' (join_correct self')
                      else Continue self' (S guess_count))).
Proof.
  intros Hg Ht Hc. split.
  - intros tiles Htiles.
    destruct (record_tags_recorded guess tags self 5) as (self' & Hrun & Hrec);
      [lia..|].
    rewrite take_ge in Hrec by lia. exists self'. split; [|done].
    rewrite (solve_wordle_record_tags _ _ tags).
    + by rewrite Hrun.
    + intros i Hi. apply Htiles. apply elem_of_seq in Hi. lia.
  - intros word Hw Htags.
    destruct (solve_word_record_tags word guess tags self)
      as (self' & Hrun & Hrec); try done.
    exists self'. split; [done|]. split; [done|].
    intros guess_count. unfold solve_word_accept. rewrite Hrun. simpl.
    by destruct (all_correct self').
Qed.

Lemma record_evaluation_exact_witness :
  ∃ self',
    solve_word_record (str "angle") (str "apple")
      (mkSolver (replicate 5 None) ∅ ∅ true [(str "angle", 5)]) = Ok self' ∧
    recorded (str "apple") [Correct; Absent; Absent; Correct; Correct]
      (mkSolver (replicate 5 None) ∅ ∅ true [(str "angle", 5)]) self'.
Proof.
  destruct (record_evaluation_exact (str "apple")
              [Correct; Absent; Absent; Correct; Correct]
              (mkSolver (replicate 5 None) ∅ ∅ true [(str "angle", 5)])
              eq_refl eq_refl eq_refl) as [_ Hword].
  destruct (Hword (str "angle")) as (self' & Hrun & Hrec & _).
  - reflexivity.
  - intros [|[|[|[|[|i]]]]] g; simpl; intros [= <-]; reflexivity || done.
  - exists self'. split; [exact Hrun|exact Hrec].
Defined.

(** ** Entries of the wrong length *)

Lemma str_not_in_tuples (g : pystr) (ws : list (pystr * Z)) :
  py_in (PyStr g) (map (λ w, PyTuple w.1 w.2) ws) = false.
Proof. induction ws as [|w ws IH]; [done|]. simpl. exact IH. Qed.

Lemma solve_word_body_manual word self guess_count entered rnd :
  auto self = false → entered ≠ str "0" →
  solve_word_body word self guess_count entered rnd =
    if decide (length entered = 5%nat)
    then solve_word_accept word entered self guess_count
    else Ok (Continue self guess_count).
Proof.
  intros Ha Hne. unfold solve_word_body. rewrite Ha.
  rewrite decide_False by done. rewrite str_not_in_tuples. simpl negb.
  rewrite andb_true_r. case_decide.
  - by rewrite bool_decide_eq_false_2 by (intros ?; done).
  - by rewrite bool_decide_eq_true_2.
Qed.

Lemma solve_word_accept_advances word guess self guess_count self' n :
  solve_word_accept word guess self guess_count = Ok (Continue self' n) →
  n = S guess_count.
Proof.
  unfold solve_word_accept.
  destruct (solve_word_record word guess self) as [s|e]; simpl; [|done].
  destruct (all_correct s); by intros [= _ <-].
Qed.

(** C7.  An entry other than ["0"] whose length is not 5 changes nothing:
    the pass ends with the same solver object (confirmed letters, present
    letters, absent letters, candidate list) and the same guess count, and
    the loop goes on to read the next entry from there. *)
Theorem solve_word_rejects_wrong_length word self guess_count entered rnd io :
  auto self = false → entered ≠ str "0" → length entered ≠ 5%nat →
  solve_word_body word self guess_count entered rnd
    = Ok (Continue self guess_count) ∧
  ((guess_count < 6)%nat →
   solve_word word self guess_count ((entered, rnd) :: io)
     = solve_word word self guess_count io).
Proof.
  intros Ha Hne Hlen.
  assert (solve_word_body word self guess_count entered rnd
            = Ok (Continue self guess_count)) as Hbody.
  { rewrite solve_word_body_manual by done. by rewrite decide_False. }
  split; [done|]. intros Hn. simpl. rewrite decide_True by done.
  rewrite Hbody. simpl. destruct io; simpl; by rewrite ?decide_True.
Qed.

Lemma solve_word_rejects_wrong_length_witness :
  solve_word_body (str "angle")
    (mkSolver (replicate 5 None) ∅ ∅ false [(str "apple", 5)]) 2 (str "app") 0
  = Ok (Continue (mkSolver (replicate 5 None) ∅ ∅ false [(str "apple", 5)]) 2).
Proof.
  apply (solve_word_rejects_wrong_length (str "angle")
           (mkSolver (replicate 5 None) ∅ ∅ false [(str "apple", 5)])
           2 (str "app") 0 []).
  - reflexivity.
  - vm_compute. discriminate.
  - vm_compute. lia.
Defined.

(** C10.  The membership test of the [elif] compares a string with
    [(word, weight)] pairs and never finds it, for any entry and any candidate
    list.  So an entry other than ["0"] is turned away exactly when its length
    is not 5; one of length 5 is compared with the word and its evaluation is
    recorded, and it counts as a guess, whether the candidate list holds it or
    not. *)
Theorem solve_word_accepts_any_five word self guess_count entered rnd :
  auto self = false → entered ≠ str "0" →
  py_in (PyStr (lower entered)) (map (λ w, PyTuple w.1 w.2) (words self))
    = false ∧
  (solve_word_body word self guess_count entered rnd
     = Ok (Continue self guess_count)
   ↔ length entered ≠ 5%nat) ∧
  (length entered = 5%nat → length word = 5%nat →
   length (correct_letters self) = 5%nat →
   ∃ self',
     solve_word_record word entered self = Ok self' ∧
     recorded entered (compare_tags word entered) self self' ∧
     solve_word_body word self guess_count entered rnd =
       Ok (if all_correct self'
           then Return self' (join_correct self')
           else Continue self' (S guess_count))).
Proof.
  intros Ha Hne. split; [apply str_not_in_tuples|].
  rewrite solve_word_body_manual by done. split.
  - case_decide as Hlen; split; try done.
    intros Hacc. apply solve_word_accept_advances in Hacc. lia.
  - intros Hlen Hw Hc. rewrite decide_True by done.
    destruct (solve_word_record_compare word entered self)
      as (self' & Hrun & Hrec); try done.
    exists self'. split; [done|]. split; [done|].
    unfold solve_word_accept. rewrite Hrun. simpl.
    by destruct (all_correct self').
Qed.

Lemma solve_word_accepts_any_five_witness :
  solve_word_body (str "angle")
    (mkSolver (replicate 5 None) ∅ ∅ false [(str "apple", 5)]) 2 (str "zzzle") 0
    = Ok (Continue
            (mkSolver (replicate 5 None) ∅ ∅ false [(str "apple", 5)]) 2)
  ↔ length (str "zzzle") ≠ 5%nat.
Proof.
  apply (solve_word_accepts_any_five (str "angle")
           (mkSolver (replicate 5 None) ∅ ∅ false [(str "apple", 5)])
           2 (str "zzzle") 0).
  - reflexivity.
  - vm_compute. discriminate.
Defined.

Example solve_word_records_unlisted_word :
  ∃ self',
    solve_word_body (str "angle")
      (mkSolver (replicate 5 None) ∅ ∅ false [(str "apple", 5)]) 2
      (str "zzzle") 0 = Ok (Continue self' 3) ∧
    correct_letters self' = [None; None; None; Some "l"; Some "e"]%char ∧
    absent_letters self' = {[ "z"%char ]}.
Proof. eexists. split; [vm_compute; reflexivity|]. split; reflexivity. Qed.

(** ** Confirmed letters *)

Section confirmed.
Variable target : pystr.

#[local] Abbreviation confirmed_from_target := (confirmed_from_target target).
#[local] Abbreviation keeps_confirmed := (keeps_confirmed target).

Lemma keeps_confirmed_same self self' :
  correct_letters self' = correct_letters self → keeps_confirmed self self'.
Proof. intros Heq Hinv. unfold confirmed_from_target. by rewrite Heq. Qed.

Lemma keeps_confirmed_trans s1 s2 s3 :
  keeps_confirmed s1 s2 → keeps_confirmed s2 s3 → keeps_confirmed s1 s3.
Proof.
  intros H12 H23 Hinv. destruct (H12 Hinv) as [Hinv2 Hk2].
  destruct (H23 Hinv2) as [Hinv3 Hk3]. split; [done|]. eauto.
Qed.

Lemma set_correct_keeps self i g self' :
  target !! i = Some g → set_correct self i g = Ok self' →
  keeps_confirmed self self'.
Proof.
  intros Ht. unfold set_correct. case_decide as Hi; [|done].
  intros [= <-] Hinv. split.
  - intros j c. simpl. destruct (decide (i = j)) as [<-|Hne].
    + rewrite list_lookup_insert_eq by done. congruence.
    + rewrite list_lookup_insert_ne by done. apply Hinv.
  - intros j c Hj. simpl. destruct (decide (i = j)) as [<-|Hne].
    + rewrite list_lookup_insert_eq by done.
      apply Hinv in Hj. congruence.
    + by rewrite list_lookup_insert_ne.
Qed.

Lemma for_range_keeps body idxs self self' :
  (∀ s s' i, body s i = Ok s' → keeps_confirmed s s') →
  for_range body idxs self = Ok self' → keeps_confirmed self self'.
Proof.
  intros Hbody. revert self. induction idxs as [|i idxs IH]; intros self; simpl.
  - intros [= <-]. by apply keeps_confirmed_same.
  - destruct (body self i) as [s1|] eqn:Hs1; simpl; [|done].
    intros Hrun. eapply keeps_confirmed_trans; eauto.
Qed.

Lemma solve_word_tile_keeps guess self i self' :
  solve_word_tile target guess self i = Ok self' → keeps_confirmed self self'.
Proof.
  unfold solve_word_tile, subscript.
  destruct (guess !! i) as [g|]; simpl; [|done].
  destruct (target !! i) as [w|] eqn:Hw; simpl; [|done].
  case_decide as Hgw; [subst; by apply set_correct_keeps|].
  case_decide; intros [= <-]; by apply keeps_confirmed_same.
Qed.

Lemma solve_wordle_tile_keeps guess evaluation self i self' :
  (evaluation = "correct"%string → guess !! i = target !! i) →
  solve_wordle_tile guess evaluation self i = Ok self' →
  keeps_confirmed self self'.
Proof.
  intros Hagree. unfold solve_wordle_tile, subscript.
  destruct (guess !! i) as [g|] eqn:Hg; simpl; [|by repeat case_decide].
  case_decide as Hc.
  - apply set_correct_keeps. by rewrite <- Hagree.
  - case_decide; intros [= <-]; by apply keeps_confirmed_same.
Qed.

Lemma solve_wordle_record_keeps guess tiles idxs self self' valid :
  (∀ i, tiles i = Some "correct"%string → guess !! i = target !! i) →
  solve_wordle_record guess tiles idxs self = Ok (self', valid) →
  keeps_confirmed self self'.
Proof.
  intros Hagree. revert self.
  induction idxs as [|i idxs IH]; intros self; simpl.
  - intros [= <- _]. by apply keeps_confirmed_same.
  - destruct (tiles i) as [[|a e]|] eqn:Hti;
      try (intros [= <- _]; by apply keeps_confirmed_same).
    destruct (solve_wordle_tile guess (String a e) self i) as [s1|] eqn:Hs1;
      simpl; [|done].
    intros Hrun. eapply keeps_confirmed_trans; [|by eapply IH].
    eapply solve_wordle_tile_keeps; [|done].
    intros Heq. apply Hagree. by rewrite Hti, Heq.
Qed.

Lemma update_word_weights_correct_letters self self' :
  update_word_weights self = Ok self' →
  correct_letters self' = correct_letters self ∧
  present_letters self' = present_letters self ∧
  absent_letters self' = absent_letters self ∧
  auto self' = auto self.
Proof.
  unfold update_word_weights.
  destruct (build_pattern self); simpl; [|done].
  destruct (re_compile _); simpl; [|done]. by intros [= <-].
Qed.

Lemma apply_event_keeps ev self self' :
  agrees_on_correct target ev → apply_event self ev = Ok self' →
  keeps_confirmed self self'.
Proof.
  destruct ev as [word guess|guess tiles|];
    cbn [apply_event agrees_on_correct].
  - intros ->. apply for_range_keeps. intros s s' i.
    apply solve_word_tile_keeps.
  - intros Hagree.
    destruct (solve_wordle_record guess tiles (seq 0 5) self)
      as [[s valid]|] eqn:Hrec; simpl; [|done].
    intros [= <-]. by eapply solve_wordle_record_keeps.
  - intros _ Hupd. apply keeps_confirmed_same.
    by apply update_word_weights_correct_letters.
Qed.

Lemma run_keeps evs self self' :
  Forall (agrees_on_correct target) evs → run evs self = Ok self' →
  keeps_confirmed self self'.
Proof.
  intros Hevs. revert self.
  induction Hevs as [|ev evs Hev _ IH]; intros self; simpl.
  - intros [= <-]. by apply keeps_confirmed_same.
  - destruct (apply_event self ev) as [s1|] eqn:Hs1; simpl; [|done].
    intros Hrun. eapply keeps_confirmed_trans; [|by apply IH].
    by eapply apply_event_keeps.
Qed.
End confirmed.

Lemma init_correct_letters auto lines :
  correct_letters (init auto lines) = replicate 5 None.
Proof. done. Qed.

(** C8, a counterexample.  Two evaluations read from the tiles, the first
    reporting the [a] of [apple] correct at position 0 and the second the [b]
    of [berry]: the confirmed letter at position 0 is [a], then [b]. *)
Lemma confirmed_letter_overwritten :
  let tiles := λ i : nat,
    Some (if decide (i = 0%nat) then "correct" else "absent")%string in
  ∃ self1 self2,
    run [Tiles (str "apple") tiles] (init false [str "apple"; str "berry"])
      = Ok self1 ∧
    correct_letters self1 !! 0%nat = Some (Some "a"%char) ∧
    run [Tiles (str "berry") tiles] self1 = Ok self2 ∧
    correct_letters self2 !! 0%nat = Some (Some "b"%char).
Proof.
  simpl. eexists _, _. split; [reflexivity|]. split; [reflexivity|].
  split; reflexivity.
Qed.

(** C8, as amended.  When every evaluation recorded since the solver was
    created reports as correct only letters of one fixed word (as all
    evaluations of [solve_word] do), a confirmed letter is never replaced by
    another: once position [i] holds [c], it holds [c] after any further
    evaluations and filtering steps. *)
Theorem confirmed_letter_kept target auto lines evs1 evs2 self1 self2 i c :
  Forall (agrees_on_correct target) (evs1 ++ evs2) →
  run evs1 (init auto lines) = Ok self1 →
  correct_letters self1 !! i = Some (Some c) →
  run evs2 self1 = Ok self2 →
  correct_letters self2 !! i = Some (Some c).
Proof.
  intros [Hevs1 Hevs2]%Forall_app Hrun1 Hi Hrun2.
  assert (confirmed_from_target target (init auto lines)) as Hinit.
  { intros j x. rewrite init_correct_letters.
    intros [[=] _]%lookup_replicate_1. }
  destruct (run_keeps target _ _ _ Hevs1 Hrun1 Hinit) as [Hinv1 _].
  destruct (run_keeps target _ _ _ Hevs2 Hrun2 Hinv1) as [_ Hkept].
  by apply Hkept.
Qed.

Lemma confirmed_letter_kept_witness :
  correct_letters
    (mkSolver [Some "a"; Some "n"; None; Some "l"; Some "e"]%char ∅
       (list_to_set [ "p"; "k" ]%char) true
       [(str "apple", 5); (str "angle", 5)]) !! 0%nat
  = Some (Some "a"%char).
Proof.
  apply (confirmed_letter_kept (str "angle") true [str "apple"; str "angle"]
           [Compared (str "angle") (str "apple")]
           [Compared (str "angle") (str "ankle")]
           (mkSolver [Some "a"; None; None; Some "l"; Some "e"]%char ∅
              (list_to_set [ "p" ]%char) true
              [(str "apple", 5); (str "angle", 5)])).
  - repeat constructor.
  - vm_compute. reflexivity.
  - reflexivity.
  - vm_compute. reflexivity.
Defined.

(** ** The distance computed is the Levenshtein distance *)

Lemma distance_nil_l t : distance [] t = length t.
Proof. done. Qed.

Lemma distance_nil_r s : distance s [] = length s.
Proof. by destruct s. Qed.

Lemma distance_cons a s b t :
  distance (a :: s) (b :: t) =
    Nat.min (S (distance s (b :: t)))
      (Nat.min (S (distance (a :: s) t))
         ((if decide (a = b) then 0 else 1) + distance s t))%nat.
Proof. done. Qed.

Lemma edits_delete_all s : edits s [] (length s).
Proof. induction s; simpl; by constructor. Qed.

Lemma edits_insert_all t : edits [] t (length t).
Proof. induction t; simpl; by constructor. Qed.

Lemma distance_edits s t : edits s t (distance s t).
Proof.
  revert t. induction s as [|a s IHs]; intros t.
  - apply edits_insert_all.
  - induction t as [|b t IHt].
    + rewrite distance_nil_r. apply edits_delete_all.
    + rewrite distance_cons.
      pose proof (IHs (b :: t)) as Hdel. pose proof (IHs t) as Hsub.
      destruct (Nat.min_spec (S (distance s (b :: t)))
                  (Nat.min (S (distance (a :: s) t))
                     ((if decide (a = b) then 0 else 1) + distance s t)))
        as [[_ ->]|[_ ->]]; [by constructor|].
      destruct (Nat.min_spec (S (distance (a :: s) t))
                  ((if decide (a = b) then 0 else 1) + distance s t))
        as [[_ ->]|[_ ->]]; [by constructor|].
      case_decide as Hab; [subst; by constructor|by constructor].
Qed.

Lemma distance_least s t n : edits s t n → (distance s t ≤ n)%nat.
Proof.
  induction 1 as [|a s t n _ IH|a b s t n _ IH|a s t n _ IH|b s t n _ IH].
  - done.
  - rewrite distance_cons. rewrite decide_True by done. lia.
  - rewrite distance_cons. case_decide; lia.
  - destruct t as [|b t].
    + rewrite distance_nil_r in *. simpl. lia.
    + rewrite distance_cons. lia.
  - destruct s as [|a s].
    + rewrite distance_nil_l in *. simpl. lia.
    + rewrite distance_cons. lia.
Qed.

Lemma edit1_cons a s t : edit1 s t → edit1 (a :: s) (a :: t).
Proof.
  destruct 1 as [pre b post|pre x post|pre x b post].
  - apply (edit1_insert (a :: pre)).
  - apply (edit1_delete (a :: pre)).
  - apply (edit1_substitute (a :: pre)).
Qed.

Lemma edit_path_cons_both a n s t : edit_path n s t → edit_path n (a :: s) (a :: t).
Proof.
  induction 1 as [|n s t u Hst _ IH]; [constructor|].
  econstructor; [by apply edit1_cons|done].
Qed.

Lemma edits_path s t n : edits s t n → edit_path n s t.
Proof.
  induction 1 as [|a s t n _ IH|a b s t n _ IH|a s t n _ IH|b s t n _ IH].
  - constructor.
  - by apply edit_path_cons_both.
  - apply (edit_path_cons _ _ (b :: s)); [apply (edit1_substitute [])|].
    by apply edit_path_cons_both.
  - apply (edit_path_cons _ _ s); [apply (edit1_delete [])|done].
  - apply (edit_path_cons _ _ (b :: s)); [apply (edit1_insert [])|].
    by apply edit_path_cons_both.
Qed.

Lemma edits_refl s : edits s s 0.
Proof. induction s; by constructor. Qed.

(** An alignment of [t] with [u] gives one of [s] with [u] at one more edit
    at most, when one edit turns [s] into [t]. *)
Lemma edits_source_inserted pre b post u m :
  edits (pre ++ b :: post) u m → ∃ m', (m' ≤ S m)%nat ∧ edits (pre ++ post) u m'.
Proof.
  intros H. remember (pre ++ b :: post) as s eqn:Hs. revert pre Hs.
  induction H as [|a s t n H IH|a c s t n H IH|a s t n H IH|c s t n H IH];
    intros pre Hs.
  - by destruct pre.
  - destruct pre as [|x pre]; simplify_eq/=.
    + exists (S n). split; [lia|by constructor].
    + destruct (IH pre eq_refl) as (m' & ? & ?).
      exists m'. split; [lia|by constructor].
  - destruct pre as [|x pre]; simplify_eq/=.
    + exists (S n). split; [lia|by constructor].
    + destruct (IH pre eq_refl) as (m' & ? & ?).
      exists (S m'). split; [lia|by constructor].
  - destruct pre as [|x pre]; simplify_eq/=.
    + exists n. split; [lia|done].
    + destruct (IH pre eq_refl) as (m' & ? & ?).
      exists (S m'). split; [lia|by constructor].
  - destruct (IH pre Hs) as (m' & ? & ?).
    exists (S m'). split; [lia|by constructor].
Qed.

Lemma edits_source_deleted pre a post u m :
  edits (pre ++ post) u m → edits (pre ++ a :: post) u (S m).
Proof.
  intros H. remember (pre ++ post) as s eqn:Hs. revert pre Hs.
  induction H as [|x s t n H IH|x c s t n H IH|x s t n H IH|c s t n H IH];
    intros pre Hs.
  - destruct pre, post; simplify_eq/=. repeat constructor.
  - destruct pre as [|y pre]; simplify_eq/=.
    + by repeat constructor.
    + constructor. by apply IH.
  - destruct pre as [|y pre]; simplify_eq/=.
    + by repeat constructor.
    + constructor. by apply IH.
  - destruct pre as [|y pre]; simplify_eq/=.
    + by repeat constructor.
    + constructor. by apply IH.
  - constructor. by apply IH.
Qed.

Lemma edits_source_substituted pre a b post u m :
  edits (pre ++ b :: post) u m →
  ∃ m', (m' ≤ S m)%nat ∧ edits (pre ++ a :: post) u m'.
Proof.
  intros H. remember (pre ++ b :: post) as s eqn:Hs. revert pre Hs.
  induction H as [|x s t n H IH|x c s t n H IH|x s t n H IH|c s t n H IH];
    intros pre Hs.
  - by destruct pre.
  - destruct pre as [|y pre]; simplify_eq/=.
    + exists (S n). split; [lia|by constructor].
    + destruct (IH pre eq_refl) as (m' & ? & ?).
      exists m'. split; [lia|by constructor].
  - destruct pre as [|y pre]; simplify_eq/=.
    + exists (S n). split; [lia|by constructor].
    + destruct (IH pre eq_refl) as (m' & ? & ?).
      exists (S m'). split; [lia|by constructor].
  - destruct pre as [|y pre]; simplify_eq/=.
    + exists (S n). split; [lia|by constructor].
    + destruct (IH pre eq_refl) as (m' & ? & ?).
      exists (S m'). split; [lia|by constructor].
  - destruct (IH pre Hs) as (m' & ? & ?).
    exists (S m'). split; [lia|by constructor].
Qed.

Lemma path_edits n s t : edit_path n s t → ∃ m, (m ≤ n)%nat ∧ edits s t m.
Proof.
  induction 1 as [s|n s t u Hst _ (m & Hm & IH)].
  - exists 0%nat. split; [done|apply edits_refl].
  - destruct Hst as [pre b post|pre a post|pre a b post].
    + destruct (edits_source_inserted _ _ _ _ _ IH) as (m' & ? & ?).
      exists m'. split; [lia|done].
    + exists (S m). split; [lia|]. by apply edits_source_deleted.
    + destruct (edits_source_substituted pre a _ _ _ _ IH) as (m' & ? & ?).
      exists m'. split; [lia|done].
Qed.

(** [distance] computes the Levenshtein distance. *)
Lemma distance_levenshtein s t : levenshtein s t (distance s t).
Proof.
  split.
  - apply edits_path, distance_edits.
  - intros n (m & Hm & Hedits)%path_edits.
    apply distance_least in Hedits. lia.
Qed.

Lemma levenshtein_unique s t d1 d2 :
  levenshtein s t d1 → levenshtein s t d2 → d1 = d2.
Proof. intros [H1 L1] [H2 L2]. apply L1 in H2. apply L2 in H1. lia. Qed.

(** ** The weight of a word *)

Lemma lookup_padded cl i :
  padded cl !! i = default "0"%char <$> cl !! i.
Proof. unfold padded. by rewrite list_lookup_fmap. Qed.

Lemma get_word_weight_eq self word :
  get_word_weight self word =
    Z.of_nat (distance word (padded (correct_letters self)))
    - Z.of_nat (present_in self word).
Proof.
  unfold get_word_weight, present_in.
  generalize (Z.of_nat (distance word (padded (correct_letters self)))).
  intros base.
  apply (map_fold_weak_ind
           (λ r (m : gmap letter (gset nat)),
              r = base - Z.of_nat (size (filter (λ c, c ∈ word) (dom m))))).
  - rewrite dom_empty_L.
    assert (filter (λ c, c ∈ word) (∅ : gset letter) = ∅) as ->
      by (apply set_eq; intros c; rewrite elem_of_filter; set_solver).
    rewrite size_empty. lia.
  - intros c ps m r Hc ->.
    assert (c ∉ dom m) as Hdom by (by apply not_elem_of_dom).
    rewrite dom_insert_L. case_decide as Hin.
    + assert (filter (λ c, c ∈ word) ({[c]} ∪ dom m)
              = {[c]} ∪ filter (λ c, c ∈ word) (dom m)) as ->.
      { apply set_eq. intros x.
        rewrite elem_of_filter, !elem_of_union, elem_of_filter, elem_of_singleton.
        naive_solver. }
      rewrite size_union, size_singleton; [lia|].
      intros x. rewrite elem_of_singleton, elem_of_filter. naive_solver.
    + assert (filter (λ c, c ∈ word) ({[c]} ∪ dom m)
              = filter (λ c, c ∈ word) (dom m)) as ->; [|done].
      apply set_eq. intros x.
      rewrite !elem_of_filter, elem_of_union, elem_of_singleton. naive_solver.
Qed.

(** C3.  The weight of a word is its Levenshtein distance to the confirmed
    array written as a string, with ["0"] at the positions not yet
    confirmed, minus the number of distinct present letters (the keys of
    [present_letters]) that occur in the word. *)
Theorem get_word_weight_levenshtein self word :
  ∃ (pad : pystr) (d : nat),
    length pad = length (correct_letters self) ∧
    (∀ i c, correct_letters self !! i = Some c →
            pad !! i = Some (default "0"%char c)) ∧
    levenshtein word pad d ∧
    get_word_weight self word =
      Z.of_nat d
      - Z.of_nat (size (filter (λ c, c ∈ word) (dom (present_letters self)))).
Proof.
  exists (padded (correct_letters self)),
         (distance word (padded (correct_letters self))).
  split; [by unfold padded; rewrite length_map|].
  split; [by intros i c Hc; rewrite lookup_padded, Hc|].
  split; [apply distance_levenshtein|apply get_word_weight_eq].
Qed.

(** ** The weight of the target *)

Lemma edits_count_missing x s t n :
  x ∉ s → edits s t n → (length (filter (λ c, c = x) t) ≤ n)%nat.
Proof.
  intros Hx H.
  induction H as [|a s t n _ IH|a b s t n _ IH|a s t n _ IH|b s t n _ IH].
  - done.
  - rewrite filter_cons. case_decide as Ha.
    + subst. exfalso. apply Hx. left.
    + apply IH. intros ?. apply Hx. by right.
  - rewrite filter_cons. assert (x ∉ s) by (intros ?; apply Hx; by right).
    case_decide; simpl; specialize (IH ltac:(done)); lia.
  - assert (x ∉ s) by (intros ?; apply Hx; by right).
    specialize (IH ltac:(done)). lia.
  - rewrite filter_cons. case_decide; simpl; specialize (IH Hx); lia.
Qed.

Lemma unknown_padded cl :
  (unknown cl ≤ length (filter (λ c, c = "0"%char) (padded cl)))%nat.
Proof.
  unfold unknown, padded. induction cl as [|[c|] cl IH]; simpl.
  - done.
  - rewrite !filter_cons. rewrite decide_False by done.
    case_decide; simpl; lia.
  - lia.
Qed.

Lemma edits_target_padded target cl :
  length target = length cl →
  (∀ i c, cl !! i = Some (Some c) → target !! i = Some c) →
  edits target (padded cl) (unknown cl).
Proof.
  unfold unknown, padded. revert cl.
  induction target as [|a target IH]; intros [|c cl] Hlen Hcons; simplify_eq/=.
  - constructor.
  - rewrite filter_cons. destruct c as [c|].
    + rewrite decide_False by done.
      specialize (Hcons 0%nat c eq_refl) as Hc. simplify_eq/=.
      constructor. apply IH; [done|]. intros i x Hi. by apply (Hcons (S i)).
    + rewrite decide_True by done. simpl. constructor.
      apply IH; [done|]. intros i x Hi. by apply (Hcons (S i)).
Qed.

Lemma is_letter_not_placeholder word :
  Forall is_letter word → "0"%char ∉ word.
Proof.
  intros Hall Hin. rewrite Forall_forall in Hall. apply Hall in Hin.
  destruct Hin as [Hin _]. vm_compute in Hin. lia.
Qed.

(** The target is never farther from the confirmed pattern than a string
    that does not use the placeholder. *)
Lemma distance_target_least target word cl :
  length target = length cl →
  (∀ i c, cl !! i = Some (Some c) → target !! i = Some c) →
  "0"%char ∉ word →
  (distance target (padded cl) ≤ distance word (padded cl))%nat.
Proof.
  intros Hlen Hcons Hword.
  pose proof (distance_least _ _ _ (edits_target_padded _ _ Hlen Hcons)).
  pose proof (edits_count_missing _ _ _ _ Hword (distance_edits word (padded cl))).
  pose proof (unknown_padded cl). lia.
Qed.

(** C9.  With knowledge consistent with the target word, the target weighs
    no more than any word that departs from it at a confirmed position. *)
Theorem target_weight_least self target word :
  length (correct_letters self) = 5%nat →
  is_word target → is_word word →
  consistent_with target self →
  (∃ i c, correct_letters self !! i = Some (Some c) ∧ word !! i ≠ Some c) →
  get_word_weight self target ≤ get_word_weight self word.
Proof.
  intros Hlen [Htl _] [_ Hwl] [Hcor Hpres _] _.
  rewrite !get_word_weight_eq.
  assert (distance target (padded (correct_letters self))
          ≤ distance word (padded (correct_letters self)))%nat.
  { apply distance_target_least; [congruence|done|].
    by apply is_letter_not_placeholder. }
  assert (present_in self target = size (dom (present_letters self))) as Ht.
  { unfold present_in. f_equal. apply set_eq. intros c.
    rewrite elem_of_filter. naive_solver. }
  assert (present_in self word ≤ size (dom (present_letters self)))%nat.
  { unfold present_in. apply subseteq_size. intros c.
    rewrite elem_of_filter. naive_solver. }
  lia.
Qed.

Lemma target_weight_least_witness :
  get_word_weight
    (mkSolver [Some "a"; None; None; Some "l"; Some "e"]%char
       {[ "n"%char := {[ 2%nat ]} ]} (list_to_set [ "p"; "k" ]%char) true [])
    (str "angle")
  ≤ get_word_weight
      (mkSolver [Some "a"; None; None; Some "l"; Some "e"]%char
         {[ "n"%char := {[ 2%nat ]} ]} (list_to_set [ "p"; "k" ]%char) true [])
      (str "uncle").
Proof.
  apply (target_weight_least
           (mkSolver [Some "a"; None; None; Some "l"; Some "e"]%char
              {[ "n"%char := {[ 2%nat ]} ]} (list_to_set [ "p"; "k" ]%char)
              true [])
           (str "angle") (str "uncle")).
  - reflexivity.
  - split; [reflexivity|]. repeat constructor; unfold is_letter; simpl; lia.
  - split; [reflexivity|]. repeat constructor; unfold is_letter; simpl; lia.
  - split.
    + intros [|[|[|[|[|i]]]]] c; simpl; intros [= <-]; reflexivity || done.
    + intros c. simpl. rewrite dom_singleton_L, elem_of_singleton. intros ->.
      apply list_elem_of_further, list_elem_of_here.
    + intros c Hc Habs. simpl in Habs.
      rewrite !elem_of_union, !elem_of_singleton in Habs.
      unfold str in Hc. simpl in Hc.
      rewrite !elem_of_cons, elem_of_nil in Hc. set_solver.
  - exists 0%nat, "a"%char. split; [reflexivity|]. simpl. discriminate.
Defined.

(** ** The pattern and what it matches *)

Lemma nat_of_ascii_inj a b : nat_of_ascii a = nat_of_ascii b → a = b.
Proof.
  intros H. rewrite <- (ascii_nat_embedding a), <- (ascii_nat_embedding b).
  by rewrite H.
Qed.

Lemma is_char_true a b : is_char a b = true ↔ a = b.
Proof. unfold is_char. apply bool_decide_eq_true. Qed.

Lemma is_char_letter c x : is_letter c → ¬ is_letter x → is_char c x = false.
Proof.
  intros Hc Hx. unfold is_char. apply bool_decide_eq_false.
  by intros ->.
Qed.

Lemma char_in_letter c cs :
  is_letter c → Forall (λ x, ¬ is_letter x) (str cs) → char_in c cs = false.
Proof.
  intros Hc Hcs. unfold char_in. apply bool_decide_eq_false. intros Hin.
  rewrite Forall_forall in Hcs. by apply (Hcs c).
Qed.

Ltac not_letters :=
  repeat (constructor; [unfold is_letter; vm_compute; lia|]); constructor.

Lemma re_special_letter c : is_letter c → re_special c = false.
Proof. intros Hc. apply char_in_letter; [done|]. not_letters. Qed.

Lemma set_special_letter c : is_letter c → set_special c = false.
Proof. intros Hc. apply char_in_letter; [done|]. not_letters. Qed.

Ltac not_letter := unfold is_letter; vm_compute; lia.

Lemma re_parse_lit c rest :
  is_letter c →
  re_parse Top (c :: rest) = cons (Lit c) <$> re_parse Top rest.
Proof.
  intros Hc. simpl.
  rewrite (is_char_letter c "[") by (done || not_letter).
  by rewrite re_special_letter.
Qed.

Lemma re_parse_set negate items cs rest :
  Forall is_letter cs → items ≠ [] ∨ cs ≠ [] →
  re_parse (InSet negate items) (cs ++ "]"%char :: rest) =
    cons (CharSet negate (rev items ++ map (λ c, (c, c)) cs))
      <$> re_parse Top rest.
Proof.
  intros Hcs. revert items. induction Hcs as [|c cs Hc Hcs IH]; intros items Hne.
  - destruct Hne as [Hne|]; [|done]. simpl.
    destruct items; [done|]. by rewrite app_nil_r.
  - assert (re_parse (InSet negate items) ((c :: cs) ++ "]"%char :: rest)
            = re_parse (InSet negate ((c, c) :: items)) (cs ++ "]"%char :: rest))
      as ->.
    { simpl. rewrite (is_char_letter c "]") by (done || not_letter).
      rewrite set_special_letter by done.
      destruct cs as [|d cs]; simpl.
      - by destruct rest.
      - inversion Hcs; subst.
        rewrite (is_char_letter d "-") by (done || not_letter).
        by destruct (cs ++ "]"%char :: rest). }
    rewrite IH by (by left). simpl. by rewrite <- app_assoc.
Qed.

Lemma re_parse_negated cs rest :
  Forall is_letter cs → cs ≠ [] →
  re_parse Top (str "[^" ++ cs ++ str "]" ++ rest) =
    cons (CharSet true (map (λ c, (c, c)) cs)) <$> re_parse Top rest.
Proof.
  intros Hcs Hne.
  change (re_parse Top (str "[^" ++ cs ++ str "]" ++ rest))
    with (re_parse (InSet true []) (cs ++ "]"%char :: rest)).
  rewrite re_parse_set by (done || by right). done.
Qed.

Lemma re_parse_any_letter rest :
  re_parse Top (str "[a-z]" ++ rest) =
    cons (CharSet false [("a", "z")]%char) <$> re_parse Top rest.
Proof. done. Qed.

Lemma elem_of_exclude_at self i x :
  x ∈ exclude_at self i ↔
    x ∈ absent_letters self ∨ i ∈ default ∅ (present_letters self !! x).
Proof.
  unfold exclude_at. rewrite elem_of_union, elem_of_dom. split.
  - intros [[ps Hps]|?]; [|by left]. right.
    apply map_lookup_filter_Some in Hps as [-> Hi]. done.
  - intros [?|Hi]; [by right|]. left.
    destruct (present_letters self !! x) as [ps|] eqn:Hps; [|set_solver].
    exists ps. by apply map_lookup_filter_Some.
Qed.

Lemma exclude_at_letters self i :
  kb_wf self → Forall is_letter (elements (exclude_at self i)).
Proof.
  intros Hwf. apply Forall_forall. intros x.
  rewrite elem_of_elements, elem_of_exclude_at. intros [Habs|Hpres].
  - by apply (kb_wf_absent self).
  - apply (kb_wf_present self); [done|]. apply elem_of_dom.
    destruct (present_letters self !! x); [done|set_solver].
Qed.

Lemma pattern_part_parse self i :
  kb_wf self → (i < 5)%nat →
  ∃ part, pattern_part self i = Ok part ∧
          ∀ rest, re_parse Top (part ++ rest) =
                    cons (atom_at self i) <$> re_parse Top rest.
Proof.
  intros Hwf Hi. unfold pattern_part, atom_at.
  destruct (lookup_lt_is_Some_2 (correct_letters self) i) as [c Hc];
    [rewrite (kb_wf_length _ Hwf); lia|].
  rewrite (subscript_Some _ _ _ Hc), Hc. simpl. destruct c as [c|].
  - eexists. split; [done|]. intros rest. simpl app.
    apply re_parse_lit. by apply (kb_wf_correct self Hwf i).
  - case_decide as Hex.
    + eexists. split; [done|]. intros rest. apply re_parse_any_letter.
    + eexists. split; [done|]. intros rest.
      change (str "[^" ++ elements (exclude_at self i) ++ str "]")
        with ("["%char :: "^"%char :: (elements (exclude_at self i) ++ str "]")).
      simpl app. rewrite <- app_assoc.
      apply re_parse_negated; [by apply exclude_at_letters|].
      intros Hnil. apply Hex. apply elements_empty_inv in Hnil.
      by apply leibniz_equiv.
Qed.

Lemma pattern_parts_parse self idxs :
  kb_wf self → Forall (λ i, i < 5)%nat idxs →
  ∃ parts, mapM (pattern_part self) idxs = Ok parts ∧
           ∀ rest, re_parse Top (List.concat parts ++ rest) =
                     app (map (atom_at self) idxs) <$> re_parse Top rest.
Proof.
  intros Hwf. induction 1 as [|i idxs Hi _ (parts & Hparts & IH)].
  - exists []. split; [done|]. intros rest. simpl. by destruct (re_parse Top rest).
  - destruct (pattern_part_parse self i Hwf Hi) as (part & Hpart & Hparse).
    exists (part :: parts). split.
    + simpl. rewrite Hpart. simpl. by rewrite Hparts.
    + intros rest. simpl. rewrite <- app_assoc, Hparse, IH.
      by destruct (re_parse Top rest).
Qed.

Lemma build_pattern_compile self :
  kb_wf self →
  build_pattern self ≫= re_compile = Ok (map (atom_at self) (seq 0 5)).
Proof.
  intros Hwf.
  destruct (pattern_parts_parse self (seq 0 5) Hwf) as (parts & Hparts & Hparse).
  { apply Forall_forall. intros i Hi%elem_of_seq. lia. }
  unfold build_pattern. rewrite Hparts. simpl. unfold re_compile.
  specialize (Hparse []). rewrite app_nil_r in Hparse. by rewrite Hparse.
Qed.

Lemma re_match_seq (f : nat → atom) k n word :
  re_match (map f (seq k n)) word = true ↔
    ∀ j, (j < n)%nat → ∃ x, word !! j = Some x ∧ atom_match (f (k + j)%nat) x = true.
Proof.
  revert k word. induction n as [|n IH]; intros k word; simpl.
  - split; [intros _ j Hj; lia|done].
  - destruct word as [|c word].
    + split; [done|]. intros H. destruct (H 0%nat) as (x & Hx & _); [lia|done].
    + rewrite andb_true_iff, IH. split.
      * intros [Hc Hrest] [|j] Hj.
        -- exists c. by rewrite Nat.add_0_r.
        -- destruct (Hrest j) as (x & Hx & Hm); [lia|].
           exists x. split; [done|]. by rewrite Nat.add_succ_r.
      * intros H. split.
        -- destruct (H 0%nat) as (x & Hx & Hm); [lia|].
           rewrite Nat.add_0_r in Hm. by simplify_eq/=.
        -- intros j Hj. destruct (H (S j)) as (x & Hx & Hm); [lia|].
           exists x. split; [done|]. by rewrite Nat.add_succ_r in Hm.
Qed.

Lemma in_range_single x c : in_range x (c, c) = true ↔ x = c.
Proof.
  unfold in_range, char_le. simpl.
  rewrite andb_true_iff, !Nat.leb_le. split.
  - intros [??]. apply nat_of_ascii_inj. lia.
  - intros ->. lia.
Qed.

Lemma existsb_singles x cs :
  existsb (in_range x) (map (λ c, (c, c)) cs) = true ↔ x ∈ cs.
Proof.
  rewrite existsb_exists. split.
  - intros (r & Hr & Hx). apply in_map_iff in Hr as (c & <- & Hc).
    apply in_range_single in Hx as ->. by apply list_elem_of_In.
  - intros Hx. exists (x, x). split; [|by apply in_range_single].
    apply in_map_iff. exists x. split; [done|]. by apply list_elem_of_In.
Qed.

Lemma in_range_letters x : in_range x ("a", "z")%char = true ↔ is_letter x.
Proof.
  unfold in_range, char_le, is_letter. simpl fst; simpl snd.
  rewrite andb_true_iff, !Nat.leb_le.
  change (nat_of_ascii "a") with 97%nat. change (nat_of_ascii "z") with 122%nat.
  done.
Qed.

(** What the atom of position [i] asks of a letter. *)
Lemma atom_at_match self i x :
  is_letter x →
  atom_match (atom_at self i) x = true ↔
    match correct_letters self !! i with
    | Some (Some c) => (x = c)
    | _ => (x ∉ absent_letters self) ∧
           (i ∉ default ∅ (present_letters self !! x))
    end.
Proof.
  intros Hx. unfold atom_at.
  assert (atom_match
            (if decide (exclude_at self i = ∅)
             then CharSet false [("a", "z")]%char
             else CharSet true (map (λ c, (c, c)) (elements (exclude_at self i))))
            x = true
          ↔ (x ∉ absent_letters self) ∧
            (i ∉ default ∅ (present_letters self !! x)))
    as Hset.
  { pose proof (elem_of_exclude_at self i x) as Hex. case_decide as Hempty.
    - unfold atom_match, existsb.
      rewrite xorb_false_l, orb_false_r, in_range_letters.
      rewrite Hempty in Hex. set_solver.
    - unfold atom_match.
      rewrite xorb_true_l, negb_true_iff, <- not_true_iff_false, existsb_singles.
      rewrite elem_of_elements, Hex. tauto. }
  destruct (correct_letters self !! i) as [[c|]|]; [|done..].
  simpl. rewrite is_char_true. split; congruence.
Qed.

Lemma re_match_accepts self word :
  Forall is_letter word →
  re_match (map (atom_at self) (seq 0 5)) word = true ↔ accepts self word.
Proof.
  intros Hword. rewrite re_match_seq. unfold accepts.
  apply forall_proper. intros i. apply forall_proper. intros Hi.
  apply exist_proper. intros x. simpl.
  split; intros [Hx Hm]; (split; [done|]);
    apply atom_at_match; try done;
    rewrite Forall_forall in Hword; apply Hword; by eapply list_elem_of_lookup_2.
Qed.

Lemma update_word_weights_compiled self p :
  build_pattern self ≫= re_compile = Ok p →
  update_word_weights self = Ok (set_words self (filtered_words self p)).
Proof.
  unfold update_word_weights.
  destruct (build_pattern self) as [pattern|]; simpl; [|done].
  by intros ->.
Qed.

(** C4.  For knowledge about letters, the pattern compiles, and the compiled
    pattern matches a word exactly when, at each of the five positions, the
    word has the confirmed letter if one is confirmed, and otherwise a letter
    that is not absent and for which the position is not excluded.  When at
    some unconfirmed position every letter is excluded, filtering a list of
    words does not raise and leaves no candidate. *)
Theorem matcher_accepts self :
  kb_wf self →
  ∃ p,
    build_pattern self ≫= re_compile = Ok p ∧
    (∀ word, is_word word → re_match p word = true ↔ accepts self word) ∧
    ((∃ i, (i < 5)%nat ∧ correct_letters self !! i = Some None ∧
           ∀ c, is_letter c →
                c ∈ absent_letters self ∨
                i ∈ default ∅ (present_letters self !! c)) →
     Forall (λ e, is_word e.1) (words self) →
     ∃ self', update_word_weights self = Ok self' ∧ words self' = []).
Proof.
  intros Hwf. exists (map (atom_at self) (seq 0 5)).
  pose proof (build_pattern_compile self Hwf) as Hcompile.
  split; [done|]. split.
  - intros word [_ Hword]. by apply re_match_accepts.
  - intros (i & Hi & Hnone & Hall) Hwords.
    eexists. split; [by apply update_word_weights_compiled|].
    unfold set_words. cbn [words]. unfold filtered_words.
    assert (List.filter (λ w, re_match (map (atom_at self) (seq 0 5)) w.1)
              (words self) = []) as ->; [|done].
    induction Hwords as [|e ws [_ He] _ IH]; [done|]. cbn [List.filter].
    destruct (re_match (map (atom_at self) (seq 0 5)) e.1) eqn:Hm; [|done].
    exfalso.
    apply re_match_accepts in Hm; [|done].
    destruct (Hm i Hi) as (x & Hx & Hcond). rewrite Hnone in Hcond.
    destruct (Hall x) as [?|?]; [|tauto..].
    rewrite Forall_forall in He. apply He. by eapply list_elem_of_lookup_2.
Qed.

Lemma matcher_accepts_witness :
  ∃ p,
    build_pattern
      (mkSolver [Some "a"; None; None; Some "l"; Some "e"]%char
         {[ "n"%char := {[ 2%nat ]} ]} (list_to_set [ "p"; "k" ]%char) true
         [(str "angle", 5)]) ≫= re_compile = Ok p ∧
    (∀ word, is_word word →
       re_match p word = true ↔
       accepts
         (mkSolver [Some "a"; None; None; Some "l"; Some "e"]%char
            {[ "n"%char := {[ 2%nat ]} ]} (list_to_set [ "p"; "k" ]%char) true
            [(str "angle", 5)]) word).
Proof.
  destruct (matcher_accepts
              (mkSolver [Some "a"; None; None; Some "l"; Some "e"]%char
                 {[ "n"%char := {[ 2%nat ]} ]} (list_to_set [ "p"; "k" ]%char)
                 true [(str "angle", 5)])) as (p & Hp & Hacc & _).
  - split.
    + reflexivity.
    + intros [|[|[|[|[|i]]]]] c; simpl; intros [= <-];
        unfold is_letter; vm_compute; lia.
    + intros c. simpl. rewrite dom_singleton_L, elem_of_singleton. intros ->.
      unfold is_letter; vm_compute; lia.
    + intros c. simpl. rewrite !elem_of_union, !elem_of_singleton.
      intros [->|[->|[]%elem_of_empty]]; unfold is_letter; vm_compute; lia.
  - exists p. split; [exact Hp|exact Hacc].
Defined.

(** ** The candidate list across filtering steps *)

Lemma insert_by_weight_perm x l : insert_by_weight x l ≡ₚ x :: l.
Proof.
  induction l as [|y l IH]; simpl; [done|].
  destruct (x.2 <=? y.2); [done|]. rewrite IH. apply Permutation_swap.
Qed.

Lemma sort_by_weight_perm l : sort_by_weight l ≡ₚ l.
Proof.
  induction l as [|x l IH]; simpl; [done|].
  by rewrite insert_by_weight_perm, IH.
Qed.

Lemma insert_by_weight_sorted x l :
  Sorted by_weight l → Sorted by_weight (insert_by_weight x l).
Proof.
  induction 1 as [|y l Hs IH Hhd]; simpl.
  - repeat constructor.
  - destruct (Z.leb_spec x.2 y.2) as [Hle|Hgt].
    + constructor; [by constructor|]. by constructor.
    + constructor; [done|].
      destruct l as [|z l]; simpl.
      * constructor. unfold by_weight. lia.
      * destruct (x.2 <=? z.2); constructor; unfold by_weight; [lia|].
        by inversion Hhd.
Qed.

Lemma sort_by_weight_sorted l : Sorted by_weight (sort_by_weight l).
Proof.
  induction l as [|x l IH]; simpl; [constructor|].
  by apply insert_by_weight_sorted.
Qed.

Lemma filter_fst_words (P : pystr → bool) (ws : list (pystr * Z)) :
  (List.filter (λ w, P w.1) ws).*1 = List.filter P ws.*1.
Proof.
  induction ws as [|w ws IH]; [done|]. cbn [List.filter fmap list_fmap].
  destruct (P w.1); cbn [fmap list_fmap]; by rewrite <- IH.
Qed.

Lemma filter_submseteq {A} (P : A → bool) (l : list A) : List.filter P l ⊆+ l.
Proof.
  induction l as [|x l IH]; simpl; [done|].
  destruct (P x); [by apply submseteq_skip|by apply submseteq_cons].
Qed.

Lemma get_word_weight_set_words self ws word :
  get_word_weight (set_words self ws) word = get_word_weight self word.
Proof. done. Qed.

Lemma filtered_words_spec self p :
  (filtered_words self p).*1 ≡ₚ List.filter (re_match p) (words self).*1 ∧
  Forall (λ e, e.2 = get_word_weight self e.1) (filtered_words self p) ∧
  Sorted by_weight (filtered_words self p).
Proof.
  unfold filtered_words. split; [|split].
  - rewrite sort_by_weight_perm. rewrite <- list_fmap_compose.
    rewrite <- filter_fst_words. done.
  - rewrite sort_by_weight_perm. apply Forall_forall.
    intros e (w & -> & _)%list_elem_of_fmap. done.
  - apply sort_by_weight_sorted.
Qed.

Lemma for_range_words body idxs self self' :
  (∀ s s' i, body s i = Ok s' → words s' = words s) →
  for_range body idxs self = Ok self' → words self' = words self.
Proof.
  intros Hbody. revert self. induction idxs as [|i idxs IH]; intros self; simpl.
  - by intros [= <-].
  - destruct (body self i) as [s1|] eqn:Hs1; simpl; [|done].
    intros Hrun. rewrite (IH _ Hrun). eauto.
Qed.

Lemma set_correct_words self i c self' :
  set_correct self i c = Ok self' → words self' = words self.
Proof. unfold set_correct. case_decide; [|done]. by intros [= <-]. Qed.

Lemma solve_word_tile_words word guess self i self' :
  solve_word_tile word guess self i = Ok self' → words self' = words self.
Proof.
  unfold solve_word_tile, subscript.
  destruct (guess !! i) as [g|]; simpl; [|done].
  destruct (word !! i) as [w|]; simpl; [|done].
  case_decide; [apply set_correct_words|].
  case_decide; by intros [= <-].
Qed.

Lemma solve_wordle_tile_words guess evaluation self i self' :
  solve_wordle_tile guess evaluation self i = Ok self' → words self' = words self.
Proof.
  unfold solve_wordle_tile, subscript.
  destruct (guess !! i) as [g|]; simpl; [|by repeat case_decide].
  case_decide; [apply set_correct_words|].
  case_decide; by intros [= <-].
Qed.

Lemma solve_wordle_record_words guess tiles idxs self self' valid :
  solve_wordle_record guess tiles idxs self = Ok (self', valid) →
  words self' = words self.
Proof.
  revert self. induction idxs as [|i idxs IH]; intros self; simpl.
  - by intros [= <- _].
  - destruct (tiles i) as [[|a e]|]; try by intros [= <- _].
    destruct (solve_wordle_tile guess (String a e) self i) as [s1|] eqn:Hs1;
      simpl; [|done].
    intros Hrun. rewrite (IH _ Hrun). by eapply solve_wordle_tile_words.
Qed.

Lemma apply_event_words ev self self' lines :
  apply_event self ev = Ok self' →
  (words self).*1 ⊆+ lines → (words self').*1 ⊆+ lines.
Proof.
  destruct ev as [word guess|guess tiles|]; cbn [apply_event].
  - intros Hrec. erewrite (for_range_words _ _ _ self'); [done| |exact Hrec].
    intros s s' i. apply solve_word_tile_words.
  - destruct (solve_wordle_record guess tiles (seq 0 5) self)
      as [[s valid]|] eqn:Hrec; simpl; [|done].
    intros [= <-]. by rewrite (solve_wordle_record_words _ _ _ _ _ _ Hrec).
  - unfold update_word_weights.
    destruct (build_pattern self) as [pattern|]; simpl; [|done].
    destruct (re_compile pattern) as [p|]; simpl; [|done].
    intros [= <-] Hsub. cbn [words set_words].
    destruct (filtered_words_spec self p) as (Hperm & _).
    fold (filtered_words self p). rewrite Hperm.
    etrans; [apply filter_submseteq|done].
Qed.

Lemma run_words evs self self' lines :
  run evs self = Ok self' →
  (words self).*1 ⊆+ lines → (words self').*1 ⊆+ lines.
Proof.
  revert self. induction evs as [|ev evs IH]; intros self; simpl.
  - by intros [= <-].
  - destruct (apply_event self ev) as [s1|] eqn:Hs1; simpl; [|done].
    intros Hrun Hsub. apply (IH _ Hrun). by eapply apply_event_words.
Qed.

Lemma init_words auto lines : (words (init auto lines)).*1 ≡ₚ lines.
Proof.
  unfold init. cbn [words set_words]. rewrite sort_by_weight_perm.
  rewrite <- list_fmap_compose. by rewrite list_fmap_id.
Qed.

(** *** Knowledge about letters is kept, and the steps do not raise *)

Lemma init_kb_wf auto lines : kb_wf (init auto lines).
Proof.
  split; simpl.
  - done.
  - intros i c Hi. by apply (lookup_replicate_1 5 None) in Hi as [[=] _].
  - intros c. by rewrite dom_empty_L, elem_of_empty.
  - intros c. by rewrite elem_of_empty.
Qed.

Lemma set_correct_kb_wf self i c self' :
  kb_wf self → is_letter c → set_correct self i c = Ok self' → kb_wf self'.
Proof.
  intros [Hlen Hcor Hpres Habs] Hc. unfold set_correct.
  case_decide as Hi; [|done]. intros [= <-]. split; simpl; try done.
  - by rewrite length_insert.
  - intros j x. destruct (decide (i = j)) as [<-|Hne].
    + rewrite list_lookup_insert_eq by done. by intros [= <-].
    + rewrite list_lookup_insert_ne by done. apply Hcor.
Qed.

Lemma add_present_kb_wf self c i :
  kb_wf self → is_letter c → kb_wf (add_present self c i).
Proof.
  intros [Hlen Hcor Hpres Habs] Hc. split; simpl; try done.
  intros x. rewrite dom_insert_L, elem_of_union, elem_of_singleton.
  intros [->|?]; eauto.
Qed.

Lemma add_absent_kb_wf self c :
  kb_wf self → is_letter c → kb_wf (add_absent self c).
Proof.
  intros [Hlen Hcor Hpres Habs] Hc. split; simpl; try done.
  intros x. rewrite elem_of_union, elem_of_singleton. intros [->|?]; eauto.
Qed.

Lemma is_word_lookup guess i g : is_word guess → guess !! i = Some g → is_letter g.
Proof.
  intros [_ Hall] Hg. rewrite Forall_forall in Hall.
  apply Hall. by eapply list_elem_of_lookup_2.
Qed.

Lemma solve_word_tile_kb_wf word guess self i self' :
  is_word guess → kb_wf self →
  solve_word_tile word guess self i = Ok self' → kb_wf self'.
Proof.
  intros Hguess Hwf. unfold solve_word_tile, subscript.
  destruct (guess !! i) as [g|] eqn:Hg; simpl; [|done].
  pose proof (is_word_lookup _ _ _ Hguess Hg) as Hletter.
  destruct (word !! i) as [w|]; simpl; [|done].
  case_decide; [by apply set_correct_kb_wf|].
  case_decide; intros [= <-];
    [by apply add_present_kb_wf|by apply add_absent_kb_wf].
Qed.

Lemma solve_wordle_tile_kb_wf guess evaluation self i :
  is_word guess → kb_wf self → (i < 5)%nat →
  ∃ self', solve_wordle_tile guess evaluation self i = Ok self' ∧ kb_wf self'.
Proof.
  intros Hguess Hwf Hi. unfold solve_wordle_tile.
  destruct (lookup_lt_is_Some_2 guess i) as [g Hg];
    [destruct Hguess as [-> _]; lia|].
  pose proof (is_word_lookup _ _ _ Hguess Hg) as Hletter.
  rewrite (subscript_Some _ _ _ Hg). simpl. case_decide.
  - unfold set_correct. rewrite decide_True by (rewrite (kb_wf_length _ Hwf); lia).
    eexists. split; [done|].
    eapply (set_correct_kb_wf self i g); [done..|].
    unfold set_correct. by rewrite decide_True by (rewrite (kb_wf_length _ Hwf); lia).
  - case_decide; eexists; (split; [done|]);
      [by apply add_present_kb_wf|by apply add_absent_kb_wf].
Qed.

Lemma solve_wordle_record_kb_wf guess tiles idxs self :
  is_word guess → kb_wf self → Forall (λ i, i < 5)%nat idxs →
  ∃ self' valid,
    solve_wordle_record guess tiles idxs self = Ok (self', valid) ∧ kb_wf self'.
Proof.
  intros Hguess Hwf Hidxs. revert self Hwf.
  induction Hidxs as [|i idxs Hi _ IH]; intros self Hwf; simpl; [by eauto|].
  destruct (tiles i) as [[|a e]|]; [by eauto| |by eauto].
  destruct (solve_wordle_tile_kb_wf guess (String a e) self i)
    as (s1 & -> & Hwf1); try done.
  simpl. by apply IH.
Qed.

Lemma for_range_kb_wf body idxs self self' :
  (∀ s s' i, kb_wf s → body s i = Ok s' → kb_wf s') →
  kb_wf self → for_range body idxs self = Ok self' → kb_wf self'.
Proof.
  intros Hbody. revert self. induction idxs as [|i idxs IH]; intros self Hwf; simpl.
  - by intros [= <-].
  - destruct (body self i) as [s1|] eqn:Hs1; simpl; [|done].
    apply IH. by eapply Hbody.
Qed.

Lemma update_word_weights_kb_wf self :
  kb_wf self →
  ∃ self', update_word_weights self = Ok self' ∧ kb_wf self'.
Proof.
  intros Hwf. eexists. split.
  - apply update_word_weights_compiled. by apply build_pattern_compile.
  - by destruct Hwf.
Qed.

Lemma apply_event_kb_wf ev self :
  event_of_words ev → kb_wf self →
  ∃ self', apply_event self ev = Ok self' ∧ kb_wf self'.
Proof.
  destruct ev as [word guess|guess tiles|];
    cbn [apply_event event_of_words].
  - intros [Hguess Hword] Hwf.
    destruct (solve_word_record_compare word guess self)
      as (self' & Hrun & _); [by destruct Hguess|done|by destruct Hwf|].
    exists self'. split; [done|].
    eapply for_range_kb_wf; [|done|exact Hrun].
    intros s s' i. by apply solve_word_tile_kb_wf.
  - intros Hguess Hwf.
    destruct (solve_wordle_record_kb_wf guess tiles (seq 0 5) self)
      as (self' & valid & -> & Hwf'); try done.
    + apply Forall_forall. intros i Hi%elem_of_seq. lia.
    + by exists self'.
  - intros _. apply update_word_weights_kb_wf.
Qed.

Lemma run_kb_wf evs self :
  Forall event_of_words evs → kb_wf self →
  ∃ self', run evs self = Ok self' ∧ kb_wf self'.
Proof.
  intros Hevs. revert self.
  induction Hevs as [|ev evs Hev _ IH]; intros self Hwf; simpl; [by eauto|].
  destruct (apply_event_kb_wf ev self) as (s1 & -> & Hwf1); try done.
  simpl. by apply IH.
Qed.

(** C2, a counterexample.  The word list is [other], [aunts], and the
    feedback is the one the game gives when the hidden word is [other].  The
    feedback for [eerie] (present, absent, present, absent, absent) makes [e]
    absent, so the filtering step that follows drops [other] and leaves
    [aunts], which is guessed next.  The feedback for [taken] then confirms
    [e] at position 3.  The next filtering step starts from what the previous
    one left, [aunts], and ends with no candidate; filtering the word list
    loaded at the start under the same knowledge gives [other]. *)
Lemma candidates_not_recomputed :
  let lines := [str "other"; str "aunts"] in
  let evs :=
    [ Tiles (str "eerie")
        (tiles_of ["present"; "absent"; "present"; "absent"; "absent"]%string);
      Filtered;
      Tiles (str "aunts")
        (tiles_of ["absent"; "absent"; "absent"; "present"; "absent"]%string);
      Tiles (str "taken")
        (tiles_of ["present"; "absent"; "absent"; "correct"; "absent"]%string) ] in
  ∃ self,
    run evs (init false lines) = Ok self ∧
    words self = [(str "aunts", 5)] ∧
    words <$> update_word_weights self = Ok [] ∧
    words <$> update_word_weights (set_words self (words (init false lines)))
      = Ok [(str "other", 1)].
Proof.
  simpl. eexists. split; [vm_compute; reflexivity|].
  split; [reflexivity|]. split; vm_compute; reflexivity.
Qed.

Lemma update_word_weights_pruned self self' lines :
  (words self).*1 ⊆+ lines →
  update_word_weights self = Ok self' →
  ∃ p,
    build_pattern self ≫= re_compile = Ok p ∧
    (words self').*1 ≡ₚ List.filter (re_match p) (words self).*1 ∧
    Forall (λ e, e.2 = get_word_weight self' e.1) (words self') ∧
    Sorted by_weight (words self') ∧
    (words self').*1 ⊆+ lines.
Proof.
  intros Hsub. unfold update_word_weights.
  destruct (build_pattern self) as [pattern|] eqn:Hpat; simpl; [|done].
  destruct (re_compile pattern) as [p|] eqn:Hp; simpl; [|done].
  intros [= <-]. exists p. split; [done|].
  destruct (filtered_words_spec self p) as (Hperm & Hweights & Hsorted).
  cbn [words set_words]. fold (filtered_words self p).
  split; [done|]. split; [done|]. split; [done|].
  rewrite Hperm. etrans; [apply filter_submseteq|done].
Qed.

(** C2, as amended.  Every filtering step prunes the candidate list left by
    the previous step.  After any sequence of evaluations and filtering steps
    since the solver was created, the words of the candidate list after
    [update_word_weights] are the words of the candidate list before it that
    the current pattern matches (each as often as before); their weights are
    the weights under the current knowledge, the list is in ascending order
    of weight, and the candidates are among the words loaded at the start.
    When the guesses evaluated are words, the steps of the sequence and the
    filtering step do return. *)
Theorem candidates_pruned auto lines evs :
  (∀ self self',
     run evs (init auto lines) = Ok self →
     update_word_weights self = Ok self' →
     ∃ p,
       build_pattern self ≫= re_compile = Ok p ∧
       (words self').*1 ≡ₚ List.filter (re_match p) (words self).*1 ∧
       Forall (λ e, e.2 = get_word_weight self' e.1) (words self') ∧
       Sorted by_weight (words self') ∧
       (words self').*1 ⊆+ lines) ∧
  (Forall event_of_words evs →
   ∃ self self',
     run evs (init auto lines) = Ok self ∧
     update_word_weights self = Ok self').
Proof.
  split.
  - intros self self' Hrun Hupd.
    apply update_word_weights_pruned; [|done].
    apply (run_words evs (init auto lines)); [done|]. by rewrite init_words.
  - intros Hevs.
    destruct (run_kb_wf evs (init auto lines) Hevs (init_kb_wf auto lines))
      as (self & Hrun & Hwf).
    destruct (update_word_weights_kb_wf self Hwf) as (self' & Hupd & _).
    by exists self, self'.
Qed.

Lemma candidates_pruned_witness :
  ∃ self self' p,
    run [Tiles (str "eerie")
           (tiles_of ["present"; "absent"; "present"; "absent"; "absent"]%string);
         Filtered]
      (init true [str "other"; str "aunts"]) = Ok self ∧
    update_word_weights self = Ok self' ∧
    build_pattern self ≫= re_compile = Ok p ∧
    (words self').*1 ≡ₚ List.filter (re_match p) (words self).*1.
Proof.
  destruct (candidates_pruned true [str "other"; str "aunts"]
              [Tiles (str "eerie")
                 (tiles_of
                    ["present"; "absent"; "present"; "absent"; "absent"]%string);
               Filtered])
    as [Hpruned Htotal].
  destruct Htotal as (self & self' & Hrun & Hupd).
  - repeat constructor; unfold is_letter; vm_compute; lia.
  - destruct (Hpruned self self' Hrun Hupd) as (p & Hp & Hperm & _).
    exists self, self', p. repeat split; assumption.
Defined.

(** ** Runs of the model on concrete inputs *)

Example distance_kitten_sitting : distance (str "kitten") (str "sitting") = 3%nat.
Proof. reflexivity. Qed.

Example weight_fresh :
  get_word_weight (init true []) (str "apple") = 5.
Proof. vm_compute. reflexivity. Qed.

Example weight_with_knowledge :
  get_word_weight
    (mkSolver [Some "a"; None; None; Some "l"; None]%char
       {[ "e"%char := {[ 0%nat ]}; "x"%char := {[ 1%nat ]} ]} ∅ false [])
    (str "apple") = 2.
Proof. vm_compute. reflexivity. Qed.

Example pattern_with_knowledge :
  build_pattern
    (mkSolver [Some "a"; None; None; Some "l"; None]%char
       {[ "e"%char := {[ 0%nat; 2%nat ]} ]} {[ "p"%char ]} false [])
  = Ok (str "a[^p][^ep]l[^p]").
Proof. vm_compute. reflexivity. Qed.

Example pattern_fresh :
  build_pattern (init true []) = Ok (str "[a-z][a-z][a-z][a-z][a-z]").
Proof. vm_compute. reflexivity. Qed.

(** Every letter absent: the pattern compiles and no word is left. *)
Example update_all_letters_absent :
  words <$>
    update_word_weights
      (mkSolver (replicate 5 None) ∅
         (list_to_set (str "abcdefghijklmnopqrstuvwxyz")) true
         [(str "apple", 5); (str "angle", 5)])
  = Ok [].
Proof. vm_compute. reflexivity. Qed.

(** An automatic run: both draws take the first candidate. *)
Example solve_word_auto :
  ∃ self,
    solve_word (str "angle") (init true [str "apple"; str "angle"; str "ankle"])
      0 [([], 0%nat); ([], 0%nat)] = Ok (Answer self (str "angle")).
Proof. eexists. vm_compute. reflexivity. Qed.

(** An automatic run in which the second draw takes the entry after the
    minimum-weight prefix: [noble], of weight 2, is guessed while [angle], of
    weight 0, is the only candidate of minimum weight. *)
Example solve_word_draws_heavier_word :
  ∃ self,
    solve_word (str "angle")
      (init true [str "glean"; str "noble"; str "angle"]) 0
      [([], 0%nat); ([], 1%nat)] = Ok (AwaitInput self 2) ∧
    correct_letters self = [None; None; None; Some "l"; Some "e"]%char ∧
    absent_letters self = list_to_set [ "o"; "b" ]%char.
Proof.
  eexists. split; [vm_compute; reflexivity|]. split; [reflexivity|].
  vm_compute. reflexivity.
Qed.

(** * Further properties *)

(** ** The count of [get_min_weight_count] *)

Lemma enumerate_loop_range m l i idx :
  l ≠ [] → (i ≤ enumerate_loop m l i idx < i + length l)%nat.
Proof.
  revert i idx. induction l as [|[w k] l IH]; intros i idx Hne; [done|].
  simpl. destruct (k >? m); [lia|].
  destruct l as [|e l]; [simpl; lia|].
  specialize (IH (S i) i ltac:(done)). simpl length in *. lia.
Qed.

Lemma get_min_weight_count_range self :
  words self ≠ [] →
  ∃ n, get_min_weight_count self = Ok n ∧ (1 ≤ n ≤ length (words self))%nat.
Proof.
  intros Hne. unfold get_min_weight_count.
  destruct (words self) as [|[w m] l] eqn:Hw; [done|].
  pose proof (enumerate_loop_range m ((w, m) :: l) 0 0 ltac:(done)) as Hr.
  eexists. split; [done|]. case_decide; simpl length in *; lia.
Qed.

Lemma random_choice_take {A} (l : list A) n rnd :
  (1 ≤ n ≤ length l)%nat →
  ∃ e, random_choice rnd (take n l) = Ok e ∧ e ∈ l ∧
       ∃ j, (j < n)%nat ∧ l !! j = Some e.
Proof.
  intros Hn. unfold random_choice. rewrite length_take, Nat.min_l by lia.
  assert (rnd mod n < n)%nat as Hlt by (apply Nat.mod_upper_bound; lia).
  destruct (lookup_lt_is_Some_2 l (rnd mod n)) as [e He]; [lia|].
  exists e. rewrite (subscript_Some _ _ e) by (by rewrite lookup_take_lt).
  split; [done|]. split; [by eapply list_elem_of_lookup_2|]. eauto.
Qed.

(** X1.  On a non-empty candidate list, ranked or not,
    [get_min_weight_count] returns a count between 1 and the length of the
    list: the slice [self.words[:n]] is never empty, [random.choice] on it
    never raises, and what it draws is an entry of the candidate list. *)
Theorem get_min_weight_count_draw self rnd :
  words self ≠ [] →
  ∃ n e,
    get_min_weight_count self = Ok n ∧
    (1 ≤ n ≤ length (words self))%nat ∧
    random_choice rnd (take n (words self)) = Ok e ∧
    e ∈ words self.
Proof.
  intros Hne. destruct (get_min_weight_count_range self Hne) as (n & Hn & Hr).
  destruct (random_choice_take (words self) n rnd Hr) as (e & He & Hin & _).
  by exists n, e.
Qed.

Lemma get_min_weight_count_draw_witness :
  ∃ n e,
    get_min_weight_count
      (mkSolver (replicate 5 None) ∅ ∅ true
         [(str "angle", 0); (str "noble", 2); (str "apple", 3)]) = Ok n ∧
    (1 ≤ n ≤ 3)%nat ∧
    random_choice 7
      (take n [(str "angle", 0); (str "noble", 2); (str "apple", 3)]) = Ok e ∧
    e ∈ [(str "angle", 0); (str "noble", 2); (str "apple", 3)].
Proof.
  apply (get_min_weight_count_draw
           (mkSolver (replicate 5 None) ∅ ∅ true
              [(str "angle", 0); (str "noble", 2); (str "apple", 3)]) 7).
  discriminate.
Defined.

(** X2.  On a ranked non-empty candidate list the count is the number of
    leading entries of minimum weight when every entry has that weight, and
    that number plus one as soon as some entry is heavier: the slice then
    ends with the first heavier entry. *)
Theorem get_min_weight_count_ranked self :
  words self ≠ [] → Sorted by_weight (words self) →
  get_min_weight_count self =
    Ok (Nat.min (length (words self)) (S (min_weight_prefix (words self)))) ∧
  (min_weight_prefix (words self) ≤ length (words self))%nat.
Proof.
  intros Hne Hs. rewrite get_min_weight_count_sorted by done.
  assert (min_weight_prefix (words self) ≤ length (words self))%nat as Hle.
  { unfold min_weight_prefix. destruct (words self) as [|e l]; [done|].
    generalize (e :: l). generalize e.2. intros m l'.
    induction l' as [|x l' IH]; simpl; [done|]. case_decide; lia. }
  split; [|done]. f_equal. case_decide; lia.
Qed.

Lemma get_min_weight_count_ranked_witness :
  get_min_weight_count
    (mkSolver (replicate 5 None) ∅ ∅ true
       [(str "angle", 0); (str "ankle", 0); (str "noble", 2); (str "apple", 3)])
  = Ok 3%nat.
Proof.
  apply (get_min_weight_count_ranked
           (mkSolver (replicate 5 None) ∅ ∅ true
              [(str "angle", 0); (str "ankle", 0); (str "noble", 2);
               (str "apple", 3)])).
  - discriminate.
  - repeat constructor; unfold by_weight; simpl; lia.
Defined.

(** ** Filtering twice, and the first ranking *)


Lemma filter_all_true {A} (P : A → bool) (l : list A) :
  Forall (λ x, P x = true) l → List.filter P l = l.
Proof.
  induction 1 as [|x l Hx _ IH]; [done|]. simpl. by rewrite Hx, IH.
Qed.











(** ** Lines that are not five letters long *)

Lemma matches_iff self x :
  matches self x = true ↔
    ∀ j, (j < 5)%nat → ∃ c, x !! j = Some c ∧ atom_match (atom_at self j) c = true.
Proof. unfold matches. by rewrite re_match_seq. Qed.

Lemma matches_length self x : matches self x = true → (5 ≤ length x)%nat.
Proof.
  intros Hm. destruct (proj1 (matches_iff self x) Hm 4%nat) as (c & Hc & _); [lia|].
  apply lookup_lt_Some in Hc. lia.
Qed.

Lemma matches_accepts self x :
  letter5 x → matches self x = true ↔ accepts self x.
Proof.
  intros Hx. rewrite matches_iff. unfold accepts.
  apply forall_proper. intros i. apply forall_proper. intros Hi.
  destruct (Hx i Hi) as (c & Hc & Hletter).
  split; intros (c' & Hc' & Hm); exists c'; (split; [done|]);
    apply atom_at_match; congruence.
Qed.

Lemma elem_of_filtered_words self p x :
  x ∈ (filtered_words self p).*1 ↔ x ∈ (words self).*1 ∧ re_match p x = true.
Proof.
  destruct (filtered_words_spec self p) as (Hperm & _). rewrite Hperm.
  rewrite list_elem_of_In, filter_In, <- list_elem_of_In. done.
Qed.

Lemma update_word_weights_matches self :
  kb_wf self →
  update_word_weights self =
    Ok (set_words self (filtered_words self (map (atom_at self) (seq 0 5)))).
Proof.
  intros Hwf. apply update_word_weights_compiled. by apply build_pattern_compile.
Qed.

(** X5.  With knowledge about letters, a filtering step returns, and it
    judges a line on its first five characters alone: a line shorter than
    five characters never stays a candidate, and a candidate whose first five
    characters are letters stays exactly when those five meet the knowledge,
    whatever follows them. *)
Theorem update_word_weights_first_five self :
  kb_wf self →
  ∃ self',
    update_word_weights self = Ok self' ∧
    (∀ x, x ∈ (words self').*1 → x ∈ (words self).*1 ∧ (5 ≤ length x)%nat) ∧
    (∀ x, letter5 x →
          x ∈ (words self').*1 ↔ x ∈ (words self).*1 ∧ accepts self x) ∧
    (∀ x rest, accepts self (x ++ rest) → length x = 5%nat → accepts self x).
Proof.
  intros Hwf. eexists. split; [by apply update_word_weights_matches|].
  cbn [words set_words]. split; [|split].
  - intros x [Hx Hm]%elem_of_filtered_words. split; [done|].
    by apply (matches_length self).
  - intros x Hx. rewrite elem_of_filtered_words.
    fold (matches self x). by rewrite matches_accepts.
  - intros x rest Hacc Hlen i Hi. destruct (Hacc i Hi) as (c & Hc & Hcond).
    exists c. split; [|done]. by rewrite lookup_app_l in Hc by lia.
Qed.

Lemma update_word_weights_first_five_witness :
  ∃ self',
    update_word_weights
      (mkSolver [Some "a"; None; None; Some "l"; Some "e"]%char ∅
         {[ "p"%char ]} true
         [(str "apt", 3); (str "angles", 6); (str "apples", 6)]) = Ok self' ∧
    (∀ x, x ∈ (words self').*1 → (5 ≤ length x)%nat).
Proof.
  destruct (update_word_weights_first_five
              (mkSolver [Some "a"; None; None; Some "l"; Some "e"]%char ∅
                 {[ "p"%char ]} true
                 [(str "apt", 3); (str "angles", 6); (str "apples", 6)]))
    as (self' & Hupd & Hlen & _).
  - split.
    + reflexivity.
    + intros [|[|[|[|[|i]]]]] c; simpl; intros [= <-];
        unfold is_letter; vm_compute; lia.
    + intros c. simpl. by rewrite dom_empty_L, elem_of_empty.
    + intros c. simpl. rewrite elem_of_singleton. intros ->.
      unfold is_letter; vm_compute; lia.
  - exists self'. split; [exact Hupd|]. intros x Hx. by apply Hlen.
Defined.

Example update_keeps_longer_line :
  words <$>
    update_word_weights
      (mkSolver [Some "a"; None; None; Some "l"; Some "e"]%char ∅
         {[ "p"%char ]} true
         [(str "apt", 3); (str "angles", 6); (str "apples", 6)])
  = Ok [(str "angles", 3)].
Proof. vm_compute. reflexivity. Qed.

(** ** Knowledge is never taken back *)

Lemma grows_refl self : grows self self.
Proof. by split. Qed.

Lemma grows_trans s1 s2 s3 : grows s1 s2 → grows s2 s3 → grows s1 s3.
Proof.
  intros [L1 C1 K1 P1 A1] [L2 C2 K2 P2 A2]. split.
  - congruence.
  - eauto.
  - set_solver.
  - intros c. etrans; [apply P1|apply P2].
  - set_solver.
Qed.

Lemma set_correct_grows self i c self' :
  set_correct self i c = Ok self' → grows self self'.
Proof.
  unfold set_correct. case_decide as Hi; [|done]. intros [= <-].
  split; simpl; try done.
  - by rewrite length_insert.
  - intros j. destruct (decide (i = j)) as [<-|Hne].
    + rewrite list_lookup_insert_eq by done. by eauto.
    + by rewrite list_lookup_insert_ne.
Qed.

Lemma add_present_grows self c i : grows self (add_present self c i).
Proof.
  split; simpl; try done.
  - rewrite dom_insert_L. set_solver.
  - intros x. destruct (decide (c = x)) as [<-|Hne].
    + rewrite lookup_insert_eq. simpl. set_solver.
    + by rewrite lookup_insert_ne.
Qed.

Lemma add_absent_grows self c : grows self (add_absent self c).
Proof. split; simpl; try done. set_solver. Qed.

Lemma solve_word_tile_grows word guess self i self' :
  solve_word_tile word guess self i = Ok self' → grows self self'.
Proof.
  unfold solve_word_tile, subscript.
  destruct (guess !! i) as [g|]; simpl; [|done].
  destruct (word !! i) as [w|]; simpl; [|done].
  case_decide; [apply set_correct_grows|].
  case_decide; intros [= <-]; [apply add_present_grows|apply add_absent_grows].
Qed.


Lemma for_range_grows body idxs self self' :
  (∀ s s' i, body s i = Ok s' → grows s s') →
  for_range body idxs self = Ok self' → grows self self'.
Proof.
  intros Hbody. revert self. induction idxs as [|i idxs IH]; intros self; simpl.
  - intros [= <-]. apply grows_refl.
  - destruct (body self i) as [s1|] eqn:Hs1; simpl; [|done].
    intros Hrun. eapply grows_trans; eauto.
Qed.






(** ** Guessing a word of the list with [solve_word] *)

Lemma for_range_inv (P : Solver → Prop) body idxs self self' :
  (∀ s s' i, i ∈ idxs → P s → body s i = Ok s' → P s') →
  P self → for_range body idxs self = Ok self' → P self'.
Proof.
  revert self. induction idxs as [|i idxs IH]; intros self Hbody HP; simpl.
  - by intros [= <-].
  - destruct (body self i) as [s1|] eqn:Hs1; simpl; [|done].
    apply IH.
    + intros s s' j Hj. apply Hbody. by right.
    + eapply (Hbody self s1 i); [left|done..].
Qed.

Lemma set_correct_true_of word self i c self' :
  true_of word self → word !! i = Some c →
  set_correct self i c = Ok self' → true_of word self'.
Proof.
  intros [Hc Hk Hp Ha] Hw. unfold set_correct. case_decide as Hi; [|done].
  intros [= <-]. split; simpl; try done.
  intros j x. destruct (decide (i = j)) as [<-|Hne].
  - rewrite list_lookup_insert_eq by done. congruence.
  - rewrite list_lookup_insert_ne by done. apply Hc.
Qed.

Lemma add_present_true_of word self c i :
  true_of word self → c ∈ word → word !! i ≠ Some c →
  true_of word (add_present self c i).
Proof.
  intros [Hc Hk Hp Ha] Hin Hne. split; simpl; try done.
  - intros x. rewrite dom_insert_L, elem_of_union, elem_of_singleton.
    intros [->|?]; eauto.
  - intros x j. destruct (decide (c = x)) as [<-|Hcx].
    + rewrite lookup_insert_eq. simpl. rewrite elem_of_union, elem_of_singleton.
      intros [->|?]; eauto.
    + rewrite lookup_insert_ne by done. apply Hp.
Qed.

Lemma add_absent_true_of word self c :
  true_of word self → c ∉ word → true_of word (add_absent self c).
Proof.
  intros [Hc Hk Hp Ha] Hin. split; simpl; try done.
  intros x. rewrite elem_of_union, elem_of_singleton. intros [->|?]; eauto.
Qed.

Lemma solve_word_tile_true_of word guess self i self' :
  true_of word self →
  solve_word_tile word guess self i = Ok self' → true_of word self'.
Proof.
  intros Htrue. unfold solve_word_tile, subscript.
  destruct (guess !! i) as [g|]; simpl; [|done].
  destruct (word !! i) as [w|] eqn:Hw; simpl; [|done].
  case_decide as Hgw; [subst; by apply set_correct_true_of|].
  case_decide; intros [= <-].
  - apply add_present_true_of; [done..|congruence].
  - by apply add_absent_true_of.
Qed.

Lemma letter5_lookup guess i g :
  letter5 guess → (i < 5)%nat → guess !! i = Some g → is_letter g.
Proof. intros H5 Hi Hg. destruct (H5 i Hi) as (c & Hc & ?). congruence. Qed.

Lemma letter5_length guess : letter5 guess → (5 ≤ length guess)%nat.
Proof.
  intros H5. destruct (H5 4%nat) as (c & Hc & _); [lia|].
  apply lookup_lt_Some in Hc. lia.
Qed.

Lemma is_word_letter5 w : is_word w → letter5 w.
Proof.
  intros [Hlen Hall] i Hi. destruct (lookup_lt_is_Some_2 w i) as [c Hc]; [lia|].
  exists c. split; [done|]. by apply (is_word_lookup w i).
Qed.

Lemma solve_word_tile_kb_wf5 word guess self i self' :
  letter5 guess → (i < 5)%nat → kb_wf self →
  solve_word_tile word guess self i = Ok self' → kb_wf self'.
Proof.
  intros Hguess Hi Hwf. unfold solve_word_tile, subscript.
  destruct (guess !! i) as [g|] eqn:Hg; simpl; [|done].
  pose proof (letter5_lookup _ _ _ Hguess Hi Hg) as Hletter.
  destruct (word !! i) as [w|]; simpl; [|done].
  case_decide; [by apply set_correct_kb_wf|].
  case_decide; intros [= <-];
    [by apply add_present_kb_wf|by apply add_absent_kb_wf].
Qed.

Lemma for_range_auto body idxs self self' :
  (∀ s s' i, body s i = Ok s' → auto s' = auto s) →
  for_range body idxs self = Ok self' → auto self' = auto self.
Proof.
  intros Hbody. apply (for_range_inv (λ s, auto s = auto self)); [|done].
  intros s s' i _ Hs Hb. by rewrite (Hbody _ _ _ Hb).
Qed.

Lemma solve_word_tile_auto word guess self i self' :
  solve_word_tile word guess self i = Ok self' → auto self' = auto self.
Proof.
  unfold solve_word_tile, subscript, set_correct.
  destruct (guess !! i) as [g|]; simpl; [|done].
  destruct (word !! i) as [w|]; simpl; [|done].
  repeat case_decide; try done; by intros [= <-].
Qed.

(** Recording the comparison of a guess that begins with five letters. *)
Lemma solve_word_record_inv word guess self :
  length word = 5%nat → letter5 guess → kb_wf self → true_of word self →
  ∃ self',
    solve_word_record word guess self = Ok self' ∧
    kb_wf self' ∧ true_of word self' ∧
    words self' = words self ∧ auto self' = auto self.
Proof.
  intros Hword Hguess Hwf Htrue.
  pose proof (letter5_length _ Hguess) as Hlen.
  destruct (record_tags_recorded guess (compare_tags word guess) self 5)
    as (self' & Hrun & _).
  { done. } { unfold compare_tags. by rewrite length_imap. }
  { by rewrite (kb_wf_length _ Hwf). }
  assert (solve_word_record word guess self = Ok self') as Hrec.
  { unfold solve_word_record. rewrite <- Hrun. apply for_range_ext.
    intros s i Hi%elem_of_seq. apply solve_word_tile_tag.
    - intros g Hg. unfold compare_tags. by rewrite list_lookup_imap, Hg.
    - apply lookup_lt_is_Some_2. lia. }
  exists self'. split; [done|]. unfold solve_word_record in Hrec.
  split; [|split; [|split]].
  - eapply (for_range_inv kb_wf); [|done|exact Hrec].
    intros s s' i Hi%elem_of_seq Hs. apply solve_word_tile_kb_wf5; [done|lia|done].
  - eapply (for_range_inv (true_of word)); [|done|exact Hrec].
    intros s s' i _. apply solve_word_tile_true_of.
  - eapply for_range_words; [|exact Hrec].
    intros s s' i. apply solve_word_tile_words.
  - eapply for_range_auto; [|exact Hrec].
    intros s s' i. apply solve_word_tile_auto.
Qed.

Lemma true_of_accepts word self :
  (5 ≤ length word)%nat → true_of word self → accepts self word.
Proof.
  intros Hlen [Hc Hk Hp Ha] i Hi.
  destruct (lookup_lt_is_Some_2 word i) as [x Hx]; [lia|].
  exists x. split; [done|].
  destruct (correct_letters self !! i) as [[c|]|] eqn:Hci.
  - apply Hc in Hci. congruence.
  - split; [|by intros ?%Hp].
    intros Hin%Ha. apply Hin. by eapply list_elem_of_lookup_2.
  - split; [|by intros ?%Hp].
    intros Hin%Ha. apply Hin. by eapply list_elem_of_lookup_2.
Qed.

Lemma all_correct_join word self :
  length word = 5%nat → length (correct_letters self) = 5%nat →
  (∀ i c, correct_letters self !! i = Some (Some c) → word !! i = Some c) →
  all_correct self = true → join_correct self = word.
Proof.
  unfold all_correct, join_correct. intros Hw Hlen Hc Hall.
  assert (correct_letters self = Some <$> omap id (correct_letters self)) as Heq.
  { revert Hall. clear. induction (correct_letters self) as [|[c|] l IH]; simpl.
    - done.
    - intros Hl. f_equal. apply IH. by destruct (forallb _ l).
    - done. }
  assert (length (omap id (correct_letters self)) = 5%nat) as Hjoin.
  { rewrite Heq, length_fmap in Hlen. done. }
  apply list_eq. intros i.
  destruct (omap id (correct_letters self) !! i) as [c|] eqn:Hi.
  - symmetry. apply Hc. rewrite Heq, list_lookup_fmap, Hi. done.
  - symmetry. apply lookup_ge_None. apply lookup_ge_None in Hi. lia.
Qed.

Lemma solve_word_accept_inv word guess self guess_count :
  is_word word → letter5 guess → kb_wf self → true_of word self →
  ∃ it,
    solve_word_accept word guess self guess_count = Ok it ∧
    match it with
    | Continue self' n =>
        kb_wf self' ∧ true_of word self' ∧ words self' = words self ∧
        auto self' = auto self ∧ n = S guess_count
    | Return _ answer => answer = word
    end.
Proof.
  intros [Hlen Hletters] Hguess Hwf Htrue.
  destruct (solve_word_record_inv word guess self)
    as (self' & Hrec & Hwf' & Htrue' & Hwords & Hauto); try done.
  unfold solve_word_accept. rewrite Hrec. simpl.
  destruct (all_correct self') eqn:Hall; eexists; (split; [done|]).
  - apply all_correct_join; [done|by destruct Hwf'|by destruct Htrue'|done].
  - done.
Qed.

Lemma exclude_at_fresh self i : fresh self → exclude_at self i = ∅.
Proof.
  intros (_ & Hp & Ha). apply set_eq. intros x.
  rewrite elem_of_exclude_at, Hp, Ha, lookup_empty. set_solver.
Qed.

Lemma matches_fresh self x : fresh self → matches self x = true → letter5 x.
Proof.
  intros Hfresh Hm i Hi.
  destruct (proj1 (matches_iff self x) Hm i Hi) as (c & Hc & Hatom).
  exists c. split; [done|]. unfold atom_at in Hatom.
  destruct Hfresh as (Hcor & Hfresh).
  rewrite Hcor, lookup_replicate_2 in Hatom by done.
  rewrite decide_True in Hatom by (by apply exclude_at_fresh).
  unfold atom_match, existsb in Hatom.
  rewrite xorb_false_l, orb_false_r in Hatom. by apply in_range_letters.
Qed.

Lemma update_word_weights_inv word self :
  is_word word → loop_inv word self →
  ∃ self',
    update_word_weights self = Ok self' ∧
    kb_wf self' ∧ true_of word self' ∧ word ∈ (words self').*1 ∧
    Forall letter5 (words self').*1 ∧ auto self' = auto self.
Proof.
  intros Hword [Hwf Htrue Hin Hletters].
  eexists. split; [by apply update_word_weights_matches|].
  split; [by destruct Hwf|]. split; [by destruct Htrue|].
  cbn [words set_words auto]. split; [|split; [|done]].
  - apply elem_of_filtered_words. split; [done|].
    fold (matches self word). apply matches_accepts.
    + by apply is_word_letter5.
    + apply true_of_accepts; [destruct Hword; lia|done].
  - apply Forall_forall. intros x [Hx Hm]%elem_of_filtered_words.
    destruct Hletters as [[_ Hfresh]|Hall].
    + by apply (matches_fresh self).
    + rewrite Forall_forall in Hall. by apply Hall.
Qed.

Lemma solve_word_body_inv word self guess_count entered rnd :
  is_word word → loop_inv word self → entry_ok entered →
  ∃ it,
    solve_word_body word self guess_count entered rnd = Ok it ∧
    match it with
    | Continue self' n =>
        loop_inv word self' ∧ auto self' = auto self ∧
        (n = S guess_count ∨ (n = guess_count ∧ auto self = false))
    | Return _ answer => answer = word
    end.
Proof.
  intros Hword Hinv Hentry. unfold solve_word_body.
  case_decide as Hguess.
  - destruct (update_word_weights_inv word self Hword Hinv)
      as (s1 & -> & Hwf1 & Htrue1 & Hin1 & Hall1 & Hauto1).
    simpl.
    destruct (get_min_weight_count_range s1) as (n & -> & Hn).
    { intros Hnil. rewrite Hnil in Hin1. by apply elem_of_nil in Hin1. }
    simpl.
    destruct (random_choice_take (words s1) n rnd Hn) as (e & -> & He & _).
    simpl.
    assert (letter5 e.1) as He5.
    { rewrite Forall_forall in Hall1. apply Hall1.
      apply list_elem_of_fmap. by exists e. }
    destruct (solve_word_accept_inv word e.1 s1 guess_count)
      as (it & -> & Hit); try done.
    exists it. split; [done|]. destruct it as [s2 k|s2 a]; [|done].
    destruct Hit as (Hwf2 & Htrue2 & Hwords2 & Hauto2 & ->).
    split; [|split; [congruence|by left]].
    split; [done|done|by rewrite Hwords2|right; by rewrite Hwords2].
  - assert (auto self = false ∧ entered ≠ str "0") as [Hauto Hne].
    { destruct (auto self); [done|]. done. }
    rewrite Hauto in *. rewrite str_not_in_tuples. simpl negb.
    rewrite andb_true_r.
    destruct Hentry as [?|[Hlen|Hw]]; [done| |].
    + rewrite bool_decide_eq_true_2 by done.
      eexists. split; [done|]. split; [done|]. split; [done|]. by right.
    + rewrite bool_decide_eq_false_2 by (destruct Hw as [-> _]; by intros ?).
      destruct Hinv as [Hwf Htrue Hin Hletters].
      destruct (solve_word_accept_inv word entered self guess_count)
        as (it & -> & Hit); try done; [by apply is_word_letter5|].
      exists it. split; [done|]. destruct it as [s2 k|s2 a]; [|done].
      destruct Hit as (Hwf2 & Htrue2 & Hwords2 & Hauto2 & ->).
      split; [|split; [congruence|by left]].
      split; [done|done|by rewrite Hwords2|].
      destruct Hletters as [[Ht _]|Hall]; [congruence|].
      right. by rewrite Hwords2.
Qed.

Lemma solve_word_inv word self guess_count io :
  is_word word → loop_inv word self → Forall (λ e, entry_ok e.1) io →
  ∃ o,
    solve_word word self guess_count io = Ok o ∧ ends_well word o ∧
    (auto self = true → (guess_count + length io ≥ 6)%nat →
     ∀ s n, o ≠ AwaitInput s n).
Proof.
  intros Hword Hinv Hio. revert self guess_count Hinv.
  induction Hio as [|[entered rnd] io Hentry _ IH]; intros self n Hinv; simpl.
  - case_decide; eexists; (split; [done|]); (split; [done|]).
    + intros _ Hge. simpl in Hge. lia.
    + done.
  - case_decide as Hn; [|by eexists].
    destruct (solve_word_body_inv word self n entered rnd Hword Hinv Hentry)
      as (it & -> & Hit).
    simpl. destruct it as [s1 k|s1 a].
    + destruct Hit as (Hinv1 & Hauto1 & Hk).
      destruct (IH s1 k Hinv1) as (o & -> & Hend & Hfull).
      exists o. split; [done|]. split; [done|].
      intros Hauto Hge. apply Hfull; [congruence|].
      destruct Hk as [->|[_ ?]]; [lia|congruence].
    + eexists. split; [done|]. split; [done|]. done.
Qed.

Lemma init_fresh auto lines : fresh (init auto lines).
Proof. done. Qed.

Lemma true_of_fresh word self : fresh self → true_of word self.
Proof.
  intros (Hc & Hp & Ha). split.
  - intros i c. rewrite Hc. intros [[=] _]%lookup_replicate_1.
  - intros c. by rewrite Hp, dom_empty_L, elem_of_empty.
  - intros c i. by rewrite Hp, lookup_empty.
  - intros c. by rewrite Ha, elem_of_empty.
Qed.

Lemma init_loop_inv word auto lines :
  word ∈ lines → auto = true ∨ Forall letter5 lines →
  loop_inv word (init auto lines).
Proof.
  intros Hin Hmode. split.
  - apply init_kb_wf.
  - apply true_of_fresh, init_fresh.
  - by rewrite init_words.
  - destruct Hmode as [->|Hall]; [left; by split|right].
    by rewrite init_words.
Qed.

(** X7.  [solve_word] on a word of the word list does not raise.  When the
    word to find is a word (five lowercase letters) and is a line of the
    word list, guesses are automatic or every line begins with five letters,
    and every entry typed is ["0"], a word or of a wrong length, the loop
    ends in one of three ways: it returns the word itself, it returns nothing
    after six guesses, or it has made fewer than six guesses and waits for
    the next entry or draw.  In automatic mode six draws are enough for it to
    return. *)
Theorem solve_word_on_listed_word word auto lines io :
  is_word word → word ∈ lines →
  auto = true ∨ Forall letter5 lines →
  Forall (λ e, entry_ok e.1) io →
  ∃ o,
    solve_word word (init auto lines) 0 io = Ok o ∧
    ends_well word o ∧
    (auto = true → (6 ≤ length io)%nat → ∀ s n, o ≠ AwaitInput s n).
Proof.
  intros Hword Hin Hmode Hio.
  destruct (solve_word_inv word (init auto lines) 0 io)
    as (o & Hrun & Hend & Hfull); [done|by apply init_loop_inv|done|].
  exists o. split; [done|]. split; [done|].
  intros Hauto Hlen. apply Hfull; [done|simpl; lia].
Qed.

Lemma solve_word_on_listed_word_witness :
  ∃ o,
    solve_word (str "angle")
      (init true [str "glean"; str "Noble!"; str "angle"]) 0
      [([], 1%nat); ([], 1%nat); ([], 0%nat)] = Ok o ∧
    ends_well (str "angle") o.
Proof.
  destruct (solve_word_on_listed_word (str "angle") true
              [str "glean"; str "Noble!"; str "angle"]
              [([], 1%nat); ([], 1%nat); ([], 0%nat)])
    as (o & Hrun & Hend & _).
  - split; [reflexivity|]. repeat constructor; unfold is_letter; vm_compute; lia.
  - apply list_elem_of_further, list_elem_of_further, list_elem_of_here.
  - by left.
  - repeat (apply List.Forall_cons; [right; left; simpl; lia|]).
    apply List.Forall_nil.
  - exists o. split; [exact Hrun|exact Hend].
Defined.

(** ** The answer of [solve_word], and words of the wrong length *)

Lemma for_range_body_ok body idxs self self' i :
  for_range body idxs self = Ok self' → i ∈ idxs →
  ∃ s1 s2, body s1 i = Ok s2.
Proof.
  revert self. induction idxs as [|j idxs IH]; intros self; simpl.
  - by intros _ ?%elem_of_nil.
  - destruct (body self j) as [s1|] eqn:Hs1; simpl; [|done].
    intros Hrun [->|Hi]%elem_of_cons; [by eauto|by eapply IH].
Qed.

Lemma solve_word_record_lengths word guess self self' :
  solve_word_record word guess self = Ok self' →
  (5 ≤ length word)%nat ∧ (5 ≤ length guess)%nat.
Proof.
  intros Hrec.
  destruct (for_range_body_ok _ _ _ _ 4%nat Hrec) as (s1 & s2 & Hb).
  { apply elem_of_seq. lia. }
  unfold solve_word_tile, subscript in Hb.
  destruct (guess !! 4%nat) as [g|] eqn:Hg; simpl in Hb; [|done].
  destruct (word !! 4%nat) as [w|] eqn:Hw; simpl in Hb; [|done].
  apply lookup_lt_Some in Hg, Hw. lia.
Qed.








Lemma solve_word_record_short_word word guess self :
  (length word < 5)%nat → (5 ≤ length guess)%nat →
  length (correct_letters self) = 5%nat →
  solve_word_record word guess self = Raise IndexOutOfRange.
Proof.
  intros Hw Hg Hc. unfold solve_word_record.
  assert (seq 0 5 = seq 0 (length word) ++ seq (length word) (5 - length word))
    as ->.
  { rewrite <- seq_app. f_equal. lia. }
  rewrite for_range_app.
  destruct (record_tags_recorded guess (compare_tags word guess) self
              (length word)) as (s1 & Hrun & _).
  { lia. } { unfold compare_tags. rewrite length_imap. lia. } { lia. }
  rewrite (for_range_ext _ (record_tag guess (compare_tags word guess))).
  - rewrite Hrun. simpl.
    destruct (5 - length word)%nat as [|k] eqn:Hk; [lia|]. simpl.
    unfold solve_word_tile.
    destruct (lookup_lt_is_Some_2 guess (length word)) as [g Hgw]; [lia|].
    rewrite (subscript_Some _ _ _ Hgw). simpl.
    unfold subscript. by rewrite (proj2 (lookup_ge_None word (length word))).
  - intros s i Hi%elem_of_seq. apply solve_word_tile_tag.
    + intros g Hgi. unfold compare_tags. by rewrite list_lookup_imap, Hgi.
    + apply lookup_lt_is_Some_2. lia.
Qed.

(** X9.  With a word of fewer than five characters, recording the first
    guess raises [IndexError]: the comparison reads [word[i]] past the end of
    the word.  So does the loop on an entry of five characters. *)
Theorem solve_word_short_word word self guess_count entered rnd io :
  (length word < 5)%nat → length (correct_letters self) = 5%nat →
  (∀ guess, (5 ≤ length guess)%nat →
            solve_word_record word guess self = Raise IndexOutOfRange) ∧
  (auto self = false → length entered = 5%nat → (guess_count < 6)%nat →
   solve_word word self guess_count ((entered, rnd) :: io)
     = Raise IndexOutOfRange).
Proof.
  intros Hw Hc. split.
  - intros guess Hg. by apply solve_word_record_short_word.
  - intros Hauto Hlen Hn. simpl. rewrite decide_True by done.
    rewrite solve_word_body_manual; [|done|].
    + rewrite decide_True by done. unfold solve_word_accept.
      rewrite solve_word_record_short_word by (done || lia). done.
    + intros ->. done.
Qed.

Lemma solve_word_short_word_witness :
  solve_word (str "ant") (init false [str "angle"]) 0 [(str "apple", 0%nat)]
  = Raise IndexOutOfRange.
Proof.
  apply (solve_word_short_word (str "ant") (init false [str "angle"]) 0
           (str "apple") 0 []); (reflexivity || (simpl; lia)).
Defined.

(** ** Pruning and filtering afresh agree in [solve_word] *)

Lemma accepts_antitone word s s1 x :
  grows s s1 → true_of word s → true_of word s1 →
  accepts s1 x → accepts s x.
Proof.
  intros Hg Ht Ht1 Hacc i Hi. destruct (Hacc i Hi) as (c & Hc & Hcond).
  exists c. split; [done|].
  assert (∀ c1, correct_letters s1 !! i = Some (Some c1) →
                (c ∉ absent_letters s) ∧
                (i ∉ default ∅ (present_letters s !! c))) as Hnew.
  { intros c1 H1. rewrite H1 in Hcond. subst c1.
    pose proof (true_of_correct _ _ Ht1 _ _ H1) as Hw. split.
    - intros Hin%(true_of_absent _ _ Ht). apply Hin.
      by eapply list_elem_of_lookup_2.
    - by intros Hin%(true_of_present _ _ Ht). }
  destruct (correct_letters s !! i) as [[c0|]|] eqn:H0.
  - destruct (grows_correct _ _ Hg i) as [c1 H1]; [by rewrite H0; eauto|].
    destruct (correct_letters s1 !! i) as [[c1'|]|] eqn:H1'; simplify_eq/=.
    pose proof (true_of_correct _ _ Ht _ _ H0).
    pose proof (true_of_correct _ _ Ht1 _ _ H1'). congruence.
  - destruct (correct_letters s1 !! i) as [[c1|]|] eqn:H1; [by eapply Hnew| |].
    + destruct Hcond as [Ha Hp]. split.
      * intros Hin. apply Ha. by apply (grows_absent _ _ Hg).
      * intros Hin. apply Hp. by apply (grows_present _ _ Hg).
    + destruct Hcond as [Ha Hp]. split.
      * intros Hin. apply Ha. by apply (grows_absent _ _ Hg).
      * intros Hin. apply Hp. by apply (grows_present _ _ Hg).
  - destruct (correct_letters s1 !! i) as [[c1|]|] eqn:H1; [by eapply Hnew| |].
    + destruct Hcond as [Ha Hp]. split.
      * intros Hin. apply Ha. by apply (grows_absent _ _ Hg).
      * intros Hin. apply Hp. by apply (grows_present _ _ Hg).
    + destruct Hcond as [Ha Hp]. split.
      * intros Hin. apply Ha. by apply (grows_absent _ _ Hg).
      * intros Hin. apply Hp. by apply (grows_present _ _ Hg).
Qed.

Lemma filter_filter_implied {A} (P Q : A → bool) (l : list A) :
  (∀ x, x ∈ l → P x = true → Q x = true) →
  List.filter P (List.filter Q l) = List.filter P l.
Proof.
  induction l as [|x l IH]; intros HPQ; [done|]. simpl.
  assert (List.filter P (List.filter Q l) = List.filter P l) as IH'.
  { apply IH. intros y Hy. apply HPQ. by right. }
  destruct (Q x) eqn:HQ; simpl.
  - by rewrite IH'.
  - destruct (P x) eqn:HP; [|done].
    rewrite (HPQ x) in HQ; [done|left|done].
Qed.

Lemma filter_Permutation_bool {A} (P : A → bool) (l l' : list A) :
  l ≡ₚ l' → List.filter P l ≡ₚ List.filter P l'.
Proof.
  induction 1 as [|x l l' _ IH|x y l|l1 l2 l3 _ IH1 _ IH2]; simpl.
  - done.
  - destruct (P x); by rewrite IH.
  - destruct (P x), (P y); try done. apply Permutation_swap.
  - by etrans.
Qed.

Lemma filtered_words_pairs self p :
  filtered_words self p ≡ₚ
    map (λ w, (w, get_word_weight self w)) (List.filter (re_match p) (words self).*1).
Proof.
  unfold filtered_words. rewrite sort_by_weight_perm.
  rewrite <- filter_fst_words. by rewrite <- list_fmap_compose.
Qed.

Lemma compared_event_inv word lines ev self :
  is_word word → Forall letter5 lines → compared_with word ev →
  kb_wf self → true_of word self → pruned_from lines self →
  ∃ self',
    apply_event self ev = Ok self' ∧
    kb_wf self' ∧ true_of word self' ∧ pruned_from lines self'.
Proof.
  intros Hword Hlines Hev Hwf Htrue (q & Hperm & Hq).
  destruct ev as [w guess|guess tiles|]; cbn [apply_event compared_with] in *.
  - destruct Hev as [-> Hguess].
    destruct (solve_word_record_inv word guess self)
      as (s1 & Hrec & Hwf1 & Htrue1 & Hwords1 & _); try done; [by destruct Hword|].
    exists s1. split; [done|]. split; [done|]. split; [done|].
    exists q. split; [by rewrite Hwords1|].
    intros x Hx Hm. apply (Hq x Hx).
    assert (letter5 x) as Hx5 by (rewrite Forall_forall in Hlines; by apply Hlines).
    apply matches_accepts; [done|]. apply matches_accepts in Hm; [|done].
    eapply (accepts_antitone word self s1); try done.
    eapply for_range_grows; [|exact Hrec].
    intros s s' i. apply solve_word_tile_grows.
  - done.
  - eexists. split; [by apply update_word_weights_matches|].
    split; [by destruct Hwf|]. split; [by destruct Htrue|].
    exists (matches self). cbn [words set_words]. split; [|done].
    destruct (filtered_words_spec self (map (atom_at self) (seq 0 5)))
      as (Hp & _).
    rewrite Hp. fold (matches self).
    rewrite (filter_Permutation_bool _ _ _ Hperm).
    by rewrite filter_filter_implied.
Qed.

Lemma compared_run_inv word lines evs self :
  is_word word → Forall letter5 lines → Forall (compared_with word) evs →
  kb_wf self → true_of word self → pruned_from lines self →
  ∃ self',
    run evs self = Ok self' ∧
    kb_wf self' ∧ true_of word self' ∧ pruned_from lines self'.
Proof.
  intros Hword Hlines Hevs. revert self.
  induction Hevs as [|ev evs Hev _ IH]; intros self Hwf Htrue Hpr; simpl.
  - by exists self.
  - destruct (compared_event_inv word lines ev self)
      as (s1 & -> & Hwf1 & Htrue1 & Hpr1); try done.
    simpl. by apply IH.
Qed.

(** X10.  In [solve_word] pruning loses nothing.  When the lines of the word
    list begin with five letters and every evaluation recorded is the
    comparison of such a guess with one word, then after any sequence of
    evaluations and filtering steps the next filtering step leaves the same
    candidates, with the same weights, as filtering the whole word list
    loaded at the start under the current knowledge. *)
Theorem pruning_is_filtering_afresh word auto lines evs :
  is_word word → Forall letter5 lines → Forall (compared_with word) evs →
  ∃ self pruned afresh,
    run evs (init auto lines) = Ok self ∧
    update_word_weights self = Ok pruned ∧
    update_word_weights (set_words self (words (init auto lines))) = Ok afresh ∧
    words pruned ≡ₚ words afresh ∧
    (words pruned).*1 ≡ₚ List.filter (matches self) lines.
Proof.
  intros Hword Hlines Hevs.
  destruct (compared_run_inv word lines evs (init auto lines))
    as (self & Hrun & Hwf & Htrue & (q & Hperm & Hq)); try done.
  { apply init_kb_wf. } { apply true_of_fresh, init_fresh. }
  { exists (λ _, true). split; [|done].
    rewrite init_words. by rewrite filter_all_true by (by apply Forall_forall). }
  assert (kb_wf (set_words self (words (init auto lines)))) as Hwf'
    by (by destruct Hwf).
  eexists self, _, _. split; [done|].
  split; [by apply update_word_weights_matches|].
  split; [by apply update_word_weights_matches|].
  cbn [words set_words].
  assert (List.filter (matches self) (words self).*1
          ≡ₚ List.filter (matches self) lines) as Hsame.
  { rewrite (filter_Permutation_bool _ _ _ Hperm).
    by rewrite filter_filter_implied. }
  split.
  - rewrite !filtered_words_pairs. cbn [words set_words].
    change (get_word_weight (set_words self (words (init auto lines))))
      with (get_word_weight self).
    fold (matches self). apply Permutation_map. rewrite Hsame.
    apply filter_Permutation_bool. by rewrite init_words.
  - destruct (filtered_words_spec self (map (atom_at self) (seq 0 5)))
      as (Hp & _).
    rewrite Hp. exact Hsame.
Qed.

Lemma pruning_is_filtering_afresh_witness :
  ∃ self pruned afresh,
    run [Filtered; Compared (str "other") (str "eerie"); Filtered;
         Compared (str "other") (str "taken")]
      (init true [str "other"; str "aunts"; str "otter"]) = Ok self ∧
    update_word_weights self = Ok pruned ∧
    update_word_weights
      (set_words self (words (init true [str "other"; str "aunts"; str "otter"])))
      = Ok afresh ∧
    words pruned ≡ₚ words afresh.
Proof.
  destruct (pruning_is_filtering_afresh (str "other") true
              [str "other"; str "aunts"; str "otter"]
              [Filtered; Compared (str "other") (str "eerie"); Filtered;
               Compared (str "other") (str "taken")])
    as (self & pruned & afresh & Hrun & Hp & Ha & Hperm & _).
  - split; [reflexivity|]. repeat constructor; unfold is_letter; vm_compute; lia.
  - repeat (apply List.Forall_cons;
      [apply is_word_letter5; split; [reflexivity|];
       repeat constructor; unfold is_letter; vm_compute; lia|]).
    apply List.Forall_nil.
  - repeat (apply List.Forall_cons;
      [first [exact I | split; [reflexivity|];
         apply is_word_letter5; split; [reflexivity|];
         repeat constructor; unfold is_letter; vm_compute; lia]|]).
    apply List.Forall_nil.
  - exists self, pruned, afresh. repeat split; assumption.
Defined.

(** ** Rows the page does not evaluate *)

Lemma solve_wordle_body_manual self guess_count entered rnd row :
  auto self = false → entered ≠ str "0" →
  solve_wordle_body self guess_count entered rnd row =
    if decide (length entered = 5%nat)
    then solve_wordle_submit entered self guess_count row
    else Ok (Continue self guess_count, []).
Proof.
  intros Ha Hne. unfold solve_wordle_body. rewrite Ha.
  rewrite decide_False by done. rewrite str_not_in_tuples. simpl negb.
  rewrite andb_true_r. case_decide.
  - by rewrite bool_decide_eq_false_2 by (intros ?; done).
  - by rewrite bool_decide_eq_true_2.
Qed.

Lemma solve_wordle_record_unevaluated guess tiles idxs self :
  unevaluated (tiles 0%nat) →
  solve_wordle_record guess tiles (0%nat :: idxs) self = Ok (self, false).
Proof. intros [Ht|Ht]; simpl; by rewrite Ht. Qed.

Lemma solve_wordle_submit_unevaluated guess self guess_count row :
  unevaluated (row guess 0%nat) →
  solve_wordle_submit guess self guess_count row =
    Ok (Continue self guess_count, taken_back guess).
Proof.
  intros Hrow. unfold solve_wordle_submit.
  change (seq 0 5) with (0%nat :: seq 1 4).
  by rewrite solve_wordle_record_unevaluated.
Qed.

(** X11.  Guesses the page does not take are not counted, and nothing bounds
    their number.  In manual mode, any run of entries of five characters
    whose first tile shows no evaluation leaves the solver and the guess
    count as they were: each is typed, entered and taken back with five
    presses of Backspace, and the loop then goes on as if they had not been
    made. *)
Theorem solve_wordle_rows_taken_back self guess_count rejected io :
  auto self = false → (guess_count < 6)%nat →
  Forall (λ e : pystr * nat * (pystr → nat → option string),
            e.1.1 ≠ str "0" ∧ length e.1.1 = 5%nat ∧
            unevaluated (e.2 e.1.1 0%nat)) rejected →
  solve_wordle self guess_count (rejected ++ io) =
    (λ r, (r.1, concat (map (λ e, taken_back e.1.1) rejected) ++ r.2))
      <$> solve_wordle self guess_count io.
Proof.
  intros Hauto Hn Hrej.
  induction Hrej as [|[[entered rnd] row] rejected (Hne & Hlen & Hrow) _ IH].
  - simpl app. destruct (solve_wordle self guess_count io) as [[o ks]|]; done.
  - cbn [app solve_wordle map concat]. rewrite decide_True by done.
    rewrite solve_wordle_body_manual by done. rewrite decide_True by done.
    simpl in Hrow. rewrite solve_wordle_submit_unevaluated by done.
    rewrite IH. destruct (solve_wordle self guess_count io) as [[o ks]|]; [|done].
    unfold fmap, result_fmap. cbn [fst snd]. by rewrite app_assoc.
Qed.

Lemma solve_wordle_rows_taken_back_witness :
  solve_wordle (init false [str "angle"]) 0
    [(str "zzzzz", 0%nat, λ _ _, None); (str "qqqqq", 0%nat, λ _ _, None)]
  = Ok (AwaitInput (init false [str "angle"]) 0,
        taken_back (str "zzzzz") ++ taken_back (str "qqqqq")).
Proof.
  apply (solve_wordle_rows_taken_back (init false [str "angle"]) 0
           [(str "zzzzz", 0%nat, λ _ _, None);
            (str "qqqqq", 0%nat, λ _ _, None)] []).
  - reflexivity.
  - lia.
  - repeat (apply List.Forall_cons;
      [split; [simpl; discriminate|split; [reflexivity|by left]]|]).
    apply List.Forall_nil.
Defined.

Lemma solve_wordle_record_app guess tiles idxs1 idxs2 self :
  solve_wordle_record guess tiles (idxs1 ++ idxs2) self =
    match solve_wordle_record guess tiles idxs1 self with
    | Ok (s, true) => solve_wordle_record guess tiles idxs2 s
    | r => r
    end.
Proof.
  revert self. induction idxs1 as [|i idxs1 IH]; intros self; [done|].
  simpl. destruct (tiles i) as [[|a e]|]; [done| |done].
  destruct (solve_wordle_tile guess (String a e) self i); simpl; [apply IH|done].
Qed.

(** X12.  A row evaluated only in part leaves its mark.  When the first
    [k] tiles of the row show an evaluation and tile [k] shows none, the tile
    loop stops there with [is_valid_guess] false, yet what the first [k]
    tiles said is recorded: the solver is the one obtained by recording the
    tags of those [k] positions. *)
Theorem solve_wordle_record_partial guess tiles tags self k :
  length guess = 5%nat → length (correct_letters self) = 5%nat →
  (k < 5)%nat → length tags = k →
  (∀ i, (i < k)%nat →
     ∃ evaluation, tiles i = Some evaluation ∧ evaluation ≠ ""%string ∧
                   tags !! i = Some (tag_of_attribute evaluation)) →
  unevaluated (tiles k) →
  ∃ self',
    solve_wordle_record guess tiles (seq 0 5) self = Ok (self', false) ∧
    recorded guess tags self self'.
Proof.
  intros Hg Hc Hk Ht Htiles Hun.
  destruct (record_tags_recorded guess tags self k) as (self' & Hrun & Hrec);
    [lia..|].
  rewrite take_ge in Hrec by lia. exists self'. split; [|done].
  assert (seq 0 5 = seq 0 k ++ k :: seq (S k) (4 - k)) as ->.
  { change (k :: seq (S k) (4 - k)) with (seq (0 + k) (S (4 - k))).
    rewrite <- (seq_app k (S (4 - k)) 0). f_equal. lia. }
  rewrite solve_wordle_record_app.
  rewrite (solve_wordle_record_tags _ _ tags).
  - rewrite Hrun. simpl. by destruct Hun as [->| ->].
  - intros i Hi%elem_of_seq. apply Htiles. lia.
Qed.

Lemma solve_wordle_record_partial_witness :
  ∃ self',
    solve_wordle_record (str "apple") (tiles_of ["correct"; "absent"]%string)
      (seq 0 5) (init false [str "angle"]) = Ok (self', false) ∧
    recorded (str "apple") [Correct; Absent] (init false [str "angle"]) self'.
Proof.
  apply (solve_wordle_record_partial (str "apple")
           (tiles_of ["correct"; "absent"]%string) [Correct; Absent]
           (init false [str "angle"]) 2); try reflexivity; try lia.
  - intros [|[|i]] Hi; [eexists; split; [reflexivity|]; split; [discriminate|
      reflexivity]..|lia].
  - by left.
Defined.

(** ** The answer of [solve_wordle] *)









(** ** The two loops are one algorithm *)

Lemma solve_wordle_tile_compared word guess self i :
  is_Some (word !! i) →
  solve_wordle_tile guess
    (attribute_of match guess !! i with
                  | Some g => compare_tag word g i
                  | None => Absent
                  end) self i
  = solve_word_tile word guess self i.
Proof.
  intros [w Hw]. unfold solve_wordle_tile, solve_word_tile.
  destruct (guess !! i) as [g|] eqn:Hg.
  - rewrite (subscript_Some _ _ _ Hg), (subscript_Some _ _ _ Hw). simpl.
    unfold compare_tag. rewrite Hw.
    destruct (decide (g = w)) as [->|Hne].
    + by rewrite (decide_True (P := Some w = Some w)).
    + rewrite (decide_False (P := Some w = Some g)) by congruence.
      by destruct (decide (g ∈ word)).
  - unfold subscript. rewrite Hg. done.
Qed.

Lemma solve_wordle_record_compared word guess idxs self :
  Forall (λ i, is_Some (word !! i)) idxs →
  solve_wordle_record guess (compared_row word guess) idxs self =
    (λ s, (s, true)) <$> for_range (solve_word_tile word guess) idxs self.
Proof.
  intros Hidxs. revert self.
  induction Hidxs as [|i idxs Hi _ IH]; intros self; [done|].
  cbn [solve_wordle_record for_range]. unfold compared_row at 1.
  rewrite <- (solve_wordle_tile_compared word guess self i Hi).
  destruct (attribute_of _) as [|a e] eqn:Hattr.
  { by destruct (match guess !! i with Some _ => _ | None => _ end). }
  destruct (solve_wordle_tile guess (String a e) self i); simpl; [apply IH|done].
Qed.

Lemma solve_wordle_submit_compared word guess self guess_count :
  (5 ≤ length word)%nat →
  fst <$> solve_wordle_submit guess self guess_count (compared_row word)
    = solve_word_accept word guess self guess_count.
Proof.
  intros Hw. unfold solve_wordle_submit, solve_word_accept, solve_word_record.
  rewrite solve_wordle_record_compared.
  - destruct (for_range (solve_word_tile word guess) (seq 0 5) self) as [s|];
      simpl; [|done].
    by destruct (all_correct s).
  - apply Forall_forall. intros i Hi%elem_of_seq.
    apply lookup_lt_is_Some_2. lia.
Qed.

Lemma solve_wordle_body_compared word self guess_count entered rnd :
  (5 ≤ length word)%nat →
  fst <$> solve_wordle_body self guess_count entered rnd (compared_row word)
    = solve_word_body word self guess_count entered rnd.
Proof.
  intros Hw. unfold solve_wordle_body, solve_word_body. case_decide.
  - destruct (update_word_weights self) as [s1|]; simpl; [|done].
    destruct (get_min_weight_count s1) as [n|]; simpl; [|done].
    destruct (random_choice rnd (take n (words s1))) as [e|]; simpl; [|done].
    by apply solve_wordle_submit_compared.
  - destruct (_ && _); [done|]. by apply solve_wordle_submit_compared.
Qed.

(** X14.  [solve_wordle] on a page that evaluates a guess the way
    [solve_word] compares it with a word of at least five characters does
    what [solve_word] does with that word: on the same entries and draws both
    loops raise the same error or end with the same solver, the same guess
    count and the same answer. *)
Theorem solve_wordle_as_solve_word word self guess_count io :
  (5 ≤ length word)%nat →
  fst <$> solve_wordle self guess_count
            (map (λ e, (e.1, e.2, compared_row word)) io)
    = solve_word word self guess_count io.
Proof.
  intros Hw. revert self guess_count.
  induction io as [|[entered rnd] io IH]; intros self n; simpl.
  - by case_decide.
  - case_decide; [|done].
    rewrite <- (solve_wordle_body_compared word self n entered rnd Hw).
    destruct (solve_wordle_body self n entered rnd (compared_row word))
      as [[[s1 k|s1 a] ks]|]; simpl; [|done..].
    rewrite <- IH.
    by destruct (solve_wordle s1 k (map _ io)) as [[o ks']|].
Qed.

Lemma solve_wordle_as_solve_word_witness :
  fst <$> solve_wordle (init true [str "apple"; str "angle"]) 0
            [([], 0%nat, compared_row (str "angle"));
             ([], 0%nat, compared_row (str "angle"))]
  = solve_word (str "angle") (init true [str "apple"; str "angle"]) 0
      [([], 0%nat); ([], 0%nat)].
Proof.
  apply (solve_wordle_as_solve_word (str "angle")
           (init true [str "apple"; str "angle"]) 0
           [([], 0%nat); ([], 0%nat)]).
  simpl. lia.
Defined.

(** ** The tries of the main program *)

Lemma main_try_ends lines word draws :
  is_word word → word ∈ lines →
  ∃ o, main_try lines word draws = Ok o ∧
       ((∃ s, o = Answer s word) ∨ (∃ s, o = NoAnswer s)).
Proof.
  intros Hword Hin. unfold main_try.
  destruct (solve_word_inv word (init true lines) 0
              (map (λ k, ([], draws k)) (seq 0 6)))
    as (o & Hrun & Hend & Hfull); [done|by apply init_loop_inv; auto| |].
  { apply Forall_forall. intros e (k & -> & _)%list_elem_of_fmap.
    right. left. simpl. lia. }
  exists o. split; [done|]. destruct o as [s a|s|s n].
  - left. exists s. simpl in Hend. by subst.
  - right. by exists s.
  - exfalso. apply (Hfull eq_refl ltac:(simpl; lia) s n). done.
Qed.

Lemma main_tries_from lines word tries success_count :
  is_word word → word ∈ lines →
  main_tries lines word tries success_count =
    Ok (success_count + length (List.filter (try_answers lines word) tries))%nat.
Proof.
  intros Hword Hin. revert success_count.
  induction tries as [|draws tries IH]; intros c; simpl.
  - f_equal. lia.
  - unfold try_answers at 1.
    destruct (main_try_ends lines word draws Hword Hin)
      as (o & -> & [[s ->]|[s ->]]); simpl.
    + rewrite decide_True by done. rewrite IH. f_equal. lia.
    + apply IH.
Qed.

(** X15.  The tries of the main program on a word of the word list.  When
    the word is a word (five lowercase letters) and a line of [words.txt],
    no try raises: each returns the word, or nothing after six guesses.  The
    count printed is the number of tries that returned an answer, at most
    the number of tries. *)
Theorem main_tries_count lines word tries :
  is_word word → word ∈ lines →
  (∀ draws, ∃ o, main_try lines word draws = Ok o ∧
                 ((∃ s, o = Answer s word) ∨ (∃ s, o = NoAnswer s))) ∧
  ∃ success_count,
    main_tries lines word tries 0 = Ok success_count ∧
    success_count = length (List.filter (try_answers lines word) tries) ∧
    (success_count ≤ length tries)%nat.
Proof.
  intros Hword Hin. split; [intros draws; by apply main_try_ends|].
  eexists. split; [by apply main_tries_from|]. split; [done|].
  simpl. induction tries as [|d tries IH]; simpl; [done|].
  destruct (try_answers lines word d); simpl; lia.
Qed.

Lemma main_tries_count_witness :
  ∃ success_count,
    main_tries [str "glean"; str "noble"; str "angle"] (str "angle")
      [λ _, 0%nat; λ _, 1%nat; λ _, 2%nat] 0 = Ok success_count ∧
    (success_count ≤ 3)%nat.
Proof.
  destruct (main_tries_count [str "glean"; str "noble"; str "angle"]
              (str "angle") [λ _, 0%nat; λ _, 1%nat; λ _, 2%nat])
    as (_ & k & Hk & _ & Hle).
  - split; [reflexivity|]. repeat constructor; unfold is_letter; vm_compute; lia.
  - apply list_elem_of_further, list_elem_of_further, list_elem_of_here.
  - exists k. split; [exact Hk|exact Hle].
Defined.

Example main_tries_run :
  main_tries [str "glean"; str "noble"; str "angle"] (str "angle")
    [λ _, 0%nat; λ _, 1%nat; λ _, 2%nat] 0 = Ok 3%nat.
Proof. vm_compute. reflexivity. Qed.

(** ** A wrong guess is not a candidate any more *)

Lemma solve_word_record_recorded5 word guess self self' :
  length (correct_letters self) = 5%nat →
  solve_word_record word guess self = Ok self' →
  recorded guess (take 5 (compare_tags word guess)) self self'.
Proof.
  intros Hc Hrec.
  pose proof (solve_word_record_lengths _ _ _ _ Hrec) as [Hw Hg].
  destruct (record_tags_recorded guess (compare_tags word guess) self 5)
    as (s1 & Hrun & Hrecorded).
  { done. } { unfold compare_tags. by rewrite length_imap. } { lia. }
  assert (solve_word_record word guess self = Ok s1) as Hrec1.
  { unfold solve_word_record. rewrite <- Hrun. apply for_range_ext.
    intros s i Hi%elem_of_seq. apply solve_word_tile_tag.
    - intros g Hgi. unfold compare_tags. by rewrite list_lookup_imap, Hgi.
    - apply lookup_lt_is_Some_2. lia. }
  congruence.
Qed.

Lemma filter_drops_length {A} (P : A → bool) (l : list A) x :
  x ∈ l → P x = false → (length (List.filter P l) < length l)%nat.
Proof.
  intros Hx HP. induction Hx as [x l|x y l Hx IH]; simpl.
  - rewrite HP. pose proof (filter_submseteq P l) as Hsub.
    apply submseteq_length in Hsub. lia.
  - specialize (IH HP). destruct (P y); simpl; lia.
Qed.

Lemma wrong_guess_rejected word guess self self' i :
  is_word word → letter5 guess → (i < 5)%nat → guess !! i ≠ word !! i →
  kb_wf self → true_of word self →
  solve_word_record word guess self = Ok self' →
  ¬ accepts self' guess.
Proof.
  intros Hword Hguess Hi Hne Hwf Htrue Hrec Hacc.
  destruct (solve_word_record_inv word guess self)
    as (s1 & Hrec1 & Hwf1 & Htrue1 & _); try done; [by destruct Hword|].
  assert (s1 = self') as -> by congruence.
  pose proof (solve_word_record_recorded5 word guess self self'
                (kb_wf_length _ Hwf) Hrec) as Hrecorded.
  destruct (Hguess i Hi) as (g & Hg & _).
  destruct (Hacc i Hi) as (x & Hx & Hcond).
  assert (x = g) as -> by congruence.
  assert (take 5 (compare_tags word guess) !! i = Some (compare_tag word g i))
    as Htag.
  { rewrite lookup_take_lt by done. unfold compare_tags.
    by rewrite list_lookup_imap, Hg. }
  destruct (correct_letters self' !! i) as [[c|]|] eqn:Hci.
  - subst c. apply (true_of_correct _ _ Htrue1) in Hci. congruence.
  - destruct Hcond as [Habs Hpres]. unfold compare_tag in Htag.
    rewrite decide_False in Htag by congruence.
    case_decide.
    + apply Hpres. apply (recorded_present _ _ _ _ Hrecorded). right. done.
    + apply Habs. apply (recorded_absent _ _ _ _ Hrecorded). right. eauto.
  - apply lookup_ge_None in Hci. rewrite (kb_wf_length _ Hwf1) in Hci. lia.
Qed.

(** X16.  In [solve_word] a wrong guess is not made twice.  When a guess
    that begins with five letters differs from the word at one of the five
    positions, then once it is compared with the word and recorded, the next
    filtering step drops it: it is not a candidate afterwards, and if it was
    one the candidate list is shorter than before. *)
Theorem wrong_guess_eliminated word guess self recorded_ filtered i :
  is_word word → letter5 guess → (i < 5)%nat → guess !! i ≠ word !! i →
  kb_wf self → true_of word self →
  solve_word_record word guess self = Ok recorded_ →
  update_word_weights recorded_ = Ok filtered →
  (guess ∉ (words filtered).*1) ∧
  (guess ∈ (words self).*1 →
   (length (words filtered) < length (words self))%nat).
Proof.
  intros Hword Hguess Hi Hne Hwf Htrue Hrec Hupd.
  pose proof (wrong_guess_rejected _ _ _ _ _ Hword Hguess Hi Hne Hwf Htrue Hrec)
    as Hrej.
  destruct (solve_word_record_inv word guess self)
    as (s1 & Hrec1 & Hwf1 & _ & Hwords & _); try done; [by destruct Hword|].
  assert (s1 = recorded_) as -> by congruence.
  rewrite update_word_weights_matches in Hupd by done.
  injection Hupd as <-. cbn [words set_words].
  assert (matches recorded_ guess = false) as Hm.
  { apply not_true_is_false. intros Hm. by apply Hrej, matches_accepts. }
  split.
  - intros [_ Hin]%elem_of_filtered_words.
    change (matches recorded_ guess = true) in Hin. congruence.
  - intros Hin.
    destruct (filtered_words_spec recorded_ (map (atom_at recorded_) (seq 0 5)))
      as (Hperm & _).
    rewrite <- (length_fmap fst (filtered_words _ _)), Hperm.
    rewrite <- (length_fmap fst (words self)), <- Hwords.
    apply (filter_drops_length _ _ guess); [by rewrite Hwords|done].
Qed.

Lemma wrong_guess_eliminated_witness :
  ∃ recorded_ filtered,
    solve_word_record (str "angle") (str "glean")
      (init true [str "glean"; str "noble"; str "angle"]) = Ok recorded_ ∧
    update_word_weights recorded_ = Ok filtered ∧
    (str "glean" ∉ (words filtered).*1).
Proof.
  eexists _, _. split; [vm_compute; reflexivity|].
  split; [vm_compute; reflexivity|].
  eapply (wrong_guess_eliminated (str "angle") (str "glean")
            (init true [str "glean"; str "noble"; str "angle"]) _ _ 0).
  - split; [reflexivity|]. repeat constructor; unfold is_letter; vm_compute; lia.
  - apply is_word_letter5. split; [reflexivity|].
    repeat constructor; unfold is_letter; vm_compute; lia.
  - lia.
  - simpl. discriminate.
  - apply init_kb_wf.
  - apply true_of_fresh, init_fresh.
  - vm_compute. reflexivity.
  - vm_compute. reflexivity.
Defined.

(** ** Short word lists *)

Lemma differs_or_same (guess word : pystr) :
  (∃ i, (i < 5)%nat ∧ guess !! i ≠ word !! i) ∨
  (∀ i, (i < 5)%nat → guess !! i = word !! i).
Proof.
  destruct (decide (guess !! 0%nat = word !! 0%nat)); [|left; exists 0%nat; split; [lia|done]].
  destruct (decide (guess !! 1%nat = word !! 1%nat)); [|left; exists 1%nat; split; [lia|done]].
  destruct (decide (guess !! 2%nat = word !! 2%nat)); [|left; exists 2%nat; split; [lia|done]].
  destruct (decide (guess !! 3%nat = word !! 3%nat)); [|left; exists 3%nat; split; [lia|done]].
  destruct (decide (guess !! 4%nat = word !! 4%nat)); [|left; exists 4%nat; split; [lia|done]].
  right. intros [|[|[|[|[|i]]]]] Hi; (done || lia).
Qed.

Lemma all_correct_lookup self :
  length (correct_letters self) = 5%nat →
  (∀ i, (i < 5)%nat → is_Some (correct_letters self !! i ≫= id)) →
  all_correct self = true.
Proof.
  unfold all_correct. intros Hlen Hall. apply forallb_forall.
  intros c Hc%list_elem_of_In. apply list_elem_of_lookup in Hc as [i Hi].
  pose proof (lookup_lt_Some _ _ _ Hi) as Hlt.
  destruct (Hall i) as [x Hx]; [lia|]. rewrite Hi in Hx. simpl in Hx.
  apply bool_decide_eq_true. by rewrite Hx.
Qed.

Lemma right_guess_solves word guess self self' :
  is_word word → letter5 guess → length (correct_letters self) = 5%nat →
  (∀ i, (i < 5)%nat → guess !! i = word !! i) →
  solve_word_record word guess self = Ok self' →
  all_correct self' = true.
Proof.
  intros Hword Hguess Hc Hsame Hrec.
  pose proof (solve_word_record_recorded5 word guess self self' Hc Hrec) as Hr.
  apply all_correct_lookup; [by rewrite (recorded_length _ _ _ _ Hr)|].
  intros i Hi. destruct (Hguess i Hi) as (g & Hg & _).
  rewrite (recorded_correct _ _ _ _ Hr).
  rewrite lookup_take_lt by done. unfold compare_tags.
  rewrite list_lookup_imap, Hg. simpl. unfold compare_tag.
  rewrite (decide_True (P := word !! i = Some g)) by (by rewrite <- Hsame).
  rewrite decide_True by done. simpl. by eauto.
Qed.

Lemma solve_word_body_auto word self guess_count entered rnd :
  is_word word → loop_inv word self → auto self = true →
  ∃ it,
    solve_word_body word self guess_count entered rnd = Ok it ∧
    match it with
    | Continue self' n =>
        loop_inv word self' ∧ auto self' = true ∧ n = S guess_count ∧
        (survivors self' < survivors self)%nat
    | Return _ answer => answer = word
    end.
Proof.
  intros Hword Hinv Hauto. unfold solve_word_body. rewrite Hauto.
  rewrite decide_True by done.
  destruct (update_word_weights_inv word self Hword Hinv)
    as (s1 & Hupd & Hwf1 & Htrue1 & Hin1 & Hall1 & Hauto1).
  rewrite Hupd. simpl.
  destruct (get_min_weight_count_range s1) as (n & -> & Hn).
  { intros Hnil. rewrite Hnil in Hin1. by apply elem_of_nil in Hin1. }
  simpl.
  destruct (random_choice_take (words s1) n rnd Hn) as (e & -> & He & _).
  simpl.
  assert (e.1 ∈ (words s1).*1) as He1 by (apply list_elem_of_fmap; by exists e).
  assert (letter5 e.1) as He5 by (rewrite Forall_forall in Hall1; by apply Hall1).
  destruct (solve_word_record_inv word e.1 s1)
    as (s2 & Hrec & Hwf2 & Htrue2 & Hwords2 & Hauto2); try done;
    [by destruct Hword|].
  unfold solve_word_accept. rewrite Hrec. simpl.
  destruct (all_correct s2) eqn:Hall; eexists; (split; [done|]).
  - apply all_correct_join; [by destruct Hword|by destruct Hwf2|
      by destruct Htrue2|done].
  - split; [|split; [congruence|split; [done|]]].
    { split; [done|done|by rewrite Hwords2|right; by rewrite Hwords2]. }
    destruct (differs_or_same e.1 word) as [(i & Hi & Hne)|Hsame].
    + assert (matches s2 e.1 = false) as Hm.
      { apply not_true_is_false. intros Hm.
        apply (wrong_guess_rejected word e.1 s1 s2 i); try done.
        by apply matches_accepts. }
      unfold survivors. rewrite Hwords2.
      assert (length (List.filter (matches self) (words self).*1)
              = length (words s1).*1) as ->.
      { rewrite update_word_weights_matches in Hupd by (by destruct Hinv).
        injection Hupd as <-. cbn [words set_words].
        destruct (filtered_words_spec self (map (atom_at self) (seq 0 5)))
          as (Hperm & _).
        by rewrite Hperm. }
      by apply (filter_drops_length _ _ e.1).
    + rewrite (right_guess_solves word e.1 s1 s2) in Hall; try done.
      by destruct Hwf1.
Qed.

Lemma survivors_word word self :
  is_word word → loop_inv word self → (1 ≤ survivors self)%nat.
Proof.
  intros Hword [Hwf Htrue Hin _]. unfold survivors.
  assert (word ∈ List.filter (matches self) (words self).*1) as Hw.
  { apply list_elem_of_In, filter_In. split; [by apply list_elem_of_In|].
    apply matches_accepts; [by apply is_word_letter5|].
    apply true_of_accepts; [destruct Hword; lia|done]. }
  destruct (List.filter (matches self) (words self).*1); [|simpl; lia].
  by apply elem_of_nil in Hw.
Qed.

Lemma solve_word_auto_finds word self guess_count io bound :
  is_word word → loop_inv word self → auto self = true →
  (survivors self + guess_count ≤ bound)%nat → (bound ≤ 6)%nat →
  (6 - guess_count ≤ length io)%nat →
  ∃ s, solve_word word self guess_count io = Ok (Answer s word).
Proof.
  intros Hword. revert self guess_count.
  induction io as [|[entered rnd] io IH]; intros self n Hinv Hauto Hsurv Hb Hio.
  - pose proof (survivors_word word self Hword Hinv). simpl in Hio. lia.
  - pose proof (survivors_word word self Hword Hinv). simpl.
    rewrite decide_True by lia.
    destruct (solve_word_body_auto word self n entered rnd Hword Hinv Hauto)
      as (it & -> & Hit).
    simpl. destruct it as [s1 k|s1 a].
    + destruct Hit as (Hinv1 & Hauto1 & -> & Hlt).
      apply IH; try done; [lia|simpl in Hio; lia].
    + subst a. by eexists.
Qed.

(** X17.  With a word list of at most six lines, automatic guessing always
    finds a word of the list: when the word is a word (five lowercase
    letters) and one of at most six lines of [words.txt], [solve_word] in
    automatic mode returns the word, whatever the draws. *)
Theorem solve_word_short_list word lines io :
  is_word word → word ∈ lines → (length lines ≤ 6)%nat →
  (6 ≤ length io)%nat →
  ∃ s, solve_word word (init true lines) 0 io = Ok (Answer s word).
Proof.
  intros Hword Hin Hlines Hio.
  apply (solve_word_auto_finds word (init true lines) 0 io (length lines));
    try done; [by apply init_loop_inv; auto|].
  unfold survivors. rewrite Nat.add_0_r.
  pose proof (filter_submseteq (matches (init true lines))
                (words (init true lines)).*1) as Hsub.
  apply submseteq_length in Hsub.
  pose proof (Permutation_length (init_words true lines)) as Hlen. lia.
Qed.

Lemma solve_word_short_list_witness :
  ∃ s,
    solve_word (str "angle")
      (init true [str "glean"; str "noble"; str "angle"; str "ankle"]) 0
      [([], 3%nat); ([], 1%nat); ([], 7%nat); ([], 0%nat); ([], 2%nat);
       ([], 5%nat)] = Ok (Answer s (str "angle")).
Proof.
  apply (solve_word_short_list (str "angle")
           [str "glean"; str "noble"; str "angle"; str "ankle"]).
  - split; [reflexivity|]. repeat constructor; unfold is_letter; vm_compute; lia.
  - do 2 apply list_elem_of_further. apply list_elem_of_here.
  - simpl. lia.
  - simpl. lia.
Defined.

(** ** Recording the same evaluation again *)

Lemma recorded_again guess tags self s1 s2 :
  recorded guess tags self s1 → recorded guess tags s1 s2 → s2 = s1.
Proof.
  intros [L1 C1 K1 P1 A1 U1 W1] [L2 C2 K2 P2 A2 U2 W2].
  assert (correct_letters s2 = correct_letters s1) as Hc.
  { apply list_eq. intros i. rewrite C2. case_decide as Ht; [|done].
    rewrite C1. by rewrite decide_True. }
  assert (present_letters s2 = present_letters s1) as Hp.
  { apply map_eq. intros c.
    assert (c ∈ dom (present_letters s2) ↔ c ∈ dom (present_letters s1)) as Hdom.
    { rewrite K2. split; [|by left]. intros [?|?]; [done|]. apply K1. by right. }
    assert (default ∅ (present_letters s2 !! c)
            = default ∅ (present_letters s1 !! c)) as Hset.
    { apply set_eq. intros i. rewrite P2. split; [|by left].
      intros [?|?]; [done|]. apply P1. by right. }
    rewrite !elem_of_dom in Hdom.
    destruct (present_letters s2 !! c) as [X2|] eqn:H2,
             (present_letters s1 !! c) as [X1|] eqn:H1; simpl in *.
    - by rewrite Hset.
    - destruct (proj1 Hdom) as [? [=]]. by eauto.
    - destruct (proj2 Hdom) as [? [=]]. by eauto.
    - done. }
  assert (absent_letters s2 = absent_letters s1) as Ha.
  { apply set_eq. intros c. rewrite A2. split; [|by left].
    intros [?|?]; [done|]. apply A1. by right. }
  destruct s1, s2. simpl in *. by subst.
Qed.

(** X18.  Recording the comparison of the same guess a second time changes
    nothing: the solver after the second recording is the solver after the
    first. *)
Theorem solve_word_record_again word guess self self' :
  length (correct_letters self) = 5%nat →
  solve_word_record word guess self = Ok self' →
  solve_word_record word guess self' = Ok self'.
Proof.
  intros Hc Hrec.
  pose proof (solve_word_record_recorded5 word guess self self' Hc Hrec) as Hr1.
  pose proof (solve_word_record_lengths _ _ _ _ Hrec) as [Hw Hg].
  assert (length (correct_letters self') = 5%nat) as Hc'
    by (by rewrite (recorded_length _ _ _ _ Hr1)).
  destruct (record_tags_recorded guess (compare_tags word guess) self' 5)
    as (s2 & Hrun & _).
  { done. } { unfold compare_tags. by rewrite length_imap. } { lia. }
  assert (solve_word_record word guess self' = Ok s2) as Hrec2.
  { unfold solve_word_record. rewrite <- Hrun. apply for_range_ext.
    intros s i Hi%elem_of_seq. apply solve_word_tile_tag.
    - intros g Hgi. unfold compare_tags. by rewrite list_lookup_imap, Hgi.
    - apply lookup_lt_is_Some_2. lia. }
  pose proof (solve_word_record_recorded5 word guess self' s2 Hc' Hrec2) as Hr2.
  rewrite Hrec2. f_equal. by eapply recorded_again.
Qed.

Lemma solve_word_record_again_witness :
  ∃ self',
    solve_word_record (str "angle") (str "glean")
      (init false [str "angle"]) = Ok self' ∧
    solve_word_record (str "angle") (str "glean") self' = Ok self'.
Proof.
  eexists. split; [vm_compute; reflexivity|].
  apply (solve_word_record_again (str "angle") (str "glean")
           (init false [str "angle"])); [reflexivity|].
  vm_compute. reflexivity.
Defined.

(** ** The word to find can always be drawn *)

Lemma weight_target_min word self x :
  is_word word → length (correct_letters self) = 5%nat → true_of word self →
  "0"%char ∉ x →
  get_word_weight self word ≤ get_word_weight self x.
Proof.
  intros [Hlen _] Hc [Hcor Hkeys _ _] Hx. rewrite !get_word_weight_eq.
  assert (distance word (padded (correct_letters self))
          ≤ distance x (padded (correct_letters self)))%nat
    by (apply distance_target_least; [congruence|done|done]).
  assert (present_in self word = size (dom (present_letters self))) as Ht.
  { unfold present_in. f_equal. apply set_eq. intros c.
    rewrite elem_of_filter. naive_solver. }
  assert (present_in self x ≤ size (dom (present_letters self)))%nat.
  { unfold present_in. apply subseteq_size. intros c.
    rewrite elem_of_filter. naive_solver. }
  lia.
Qed.

Lemma leading_block (l : list (pystr * Z)) m x :
  Sorted by_weight l → Forall (λ e, m ≤ e.2) l → (x, m) ∈ l →
  ∃ j, (j < leading m l)%nat ∧ l !! j = Some (x, m).
Proof.
  intros Hs. induction Hs as [|e l Hs IH Hhd]; intros Hall Hin.
  - by apply elem_of_nil in Hin.
  - apply Forall_cons in Hall as [He Hall]. simpl.
    pose proof (Sorted_by_weight_head e l (Sorted_cons Hs Hhd)) as Hge.
    apply Forall_cons in Hge as [_ Hge].
    case_decide as Hem.
    + apply elem_of_cons in Hin as [<-|Hin].
      * exists 0%nat. split; [lia|done].
      * destruct (IH Hall Hin) as (j & Hj & Hl).
        exists (S j). split; [lia|done].
    + exfalso. apply elem_of_cons in Hin as [<-|Hin]; [done|].
      rewrite Forall_forall in Hge. specialize (Hge _ Hin). simpl in Hge. lia.
Qed.

Lemma compared_run_candidate word evs self :
  is_word word → Forall (compared_with word) evs →
  kb_wf self → true_of word self → word ∈ (words self).*1 →
  ∃ self',
    run evs self = Ok self' ∧
    kb_wf self' ∧ true_of word self' ∧ word ∈ (words self').*1.
Proof.
  intros Hword Hevs. revert self.
  induction Hevs as [|ev evs Hev _ IH]; intros self Hwf Htrue Hin; simpl.
  - by exists self.
  - assert (∃ s1, apply_event self ev = Ok s1 ∧ kb_wf s1 ∧ true_of word s1 ∧
                  word ∈ (words s1).*1) as (s1 & -> & Hwf1 & Htrue1 & Hin1).
    { destruct ev as [w guess|guess tiles|]; cbn [apply_event compared_with] in *.
      - destruct Hev as [-> Hguess].
        destruct (solve_word_record_inv word guess self)
          as (s1 & Hrec & Hwf1 & Htrue1 & Hwords1 & _); try done;
          [by destruct Hword|].
        exists s1. by rewrite Hwords1.
      - done.
      - eexists. split; [by apply update_word_weights_matches|].
        split; [by destruct Hwf|]. split; [by destruct Htrue|].
        cbn [words set_words]. apply elem_of_filtered_words. split; [done|].
        fold (matches self word). apply matches_accepts.
        + by apply is_word_letter5.
        + apply true_of_accepts; [destruct Hword; lia|done]. }
    simpl. by apply IH.
Qed.

(** X19.  In [solve_word] the word to find is always among the entries the
    guess is drawn from.  When the word and all lines of the word list are
    words and the word is one of the lines, then after any comparisons of
    guesses with the word and any filtering steps, the next filtering step
    ranks the word with the minimum weight, and some draw of
    [random.choice] on the counted prefix picks it. *)
Theorem word_can_be_drawn word auto lines evs :
  is_word word → word ∈ lines → Forall is_word lines →
  Forall (compared_with word) evs →
  ∃ self filtered n rnd weight,
    run evs (init auto lines) = Ok self ∧
    update_word_weights self = Ok filtered ∧
    get_min_weight_count filtered = Ok n ∧
    random_choice rnd (take n (words filtered)) = Ok (word, weight) ∧
    Forall (λ e, weight ≤ e.2) (words filtered).
Proof.
  intros Hword Hin Hlines Hevs.
  destruct (compared_run_candidate word evs (init auto lines))
    as (self & Hrun & Hwf & Htrue & Hcand); try done.
  { apply init_kb_wf. } { apply true_of_fresh, init_fresh. }
  { by rewrite init_words. }
  pose proof (run_words evs (init auto lines) self lines Hrun) as Hsub.
  rewrite init_words in Hsub. specialize (Hsub ltac:(done)).
  pose proof (update_word_weights_matches self Hwf) as Hupd.
  set (p := map (atom_at self) (seq 0 5)) in *.
  destruct (filtered_words_spec self p) as (Hperm & Hweights & Hsorted).
  assert (word ∈ (filtered_words self p).*1) as Hw1.
  { apply elem_of_filtered_words. split; [done|].
    apply matches_accepts; [by apply is_word_letter5|].
    apply true_of_accepts; [destruct Hword; lia|done]. }
  apply list_elem_of_fmap in Hw1 as ([w k] & Hwk & Hw1). simpl in Hwk. subst w.
  assert (k = get_word_weight self word) as Hk.
  { rewrite Forall_forall in Hweights. by apply (Hweights _ Hw1). }
  assert (Forall (λ e, k ≤ e.2) (filtered_words self p)) as Hmin.
  { apply Forall_forall. intros e He.
    rewrite Forall_forall in Hweights. rewrite (Hweights e He), Hk.
    apply weight_target_min; [done|by destruct Hwf|done|].
    apply is_letter_not_placeholder.
    assert (e.1 ∈ lines) as Hel.
    { assert (e.1 ∈ (filtered_words self p).*1) as He1
        by (apply list_elem_of_fmap; by exists e).
      apply elem_of_filtered_words in He1 as [He1 _].
      by apply (elem_of_submseteq _ _ _ He1). }
    rewrite Forall_forall in Hlines. by destruct (Hlines _ Hel). }
  destruct (leading_block _ k word Hsorted Hmin Hw1) as (j & Hj & Hlj).
  set (filtered := set_words self (filtered_words self p)) in *.
  assert (words filtered = filtered_words self p) as Hwords by done.
  assert (words filtered ≠ []) as Hne.
  { rewrite Hwords. intros Hnil. rewrite Hnil in Hw1. by apply elem_of_nil in Hw1. }
  assert (min_weight_prefix (words filtered) = leading k (words filtered)) as Hpre.
  { rewrite Hwords in *. unfold min_weight_prefix.
    destruct (filtered_words self p) as [|e l] eqn:Hl; [done|].
    assert (e.2 = k) as ->; [|done].
    apply Forall_cons in Hmin as [Hke _].
    destruct j as [|j]; simpl in *; [by simplify_eq/=|].
    case_decide; [done|lia]. }
  pose proof (get_min_weight_count_sorted filtered Hne
                ltac:(by rewrite Hwords)) as Hcount.
  assert (leading k (words filtered) ≤ length (words filtered))%nat as Hle.
  { clear. induction (words filtered) as [|x l IH]; simpl; [done|].
    case_decide; lia. }
  eexists self, filtered, _, j, k. split; [done|]. split; [done|].
  split; [exact Hcount|]. split; [|by rewrite Hwords].
  unfold random_choice. rewrite Hpre, <- Hwords in *.
  assert (j < if decide (leading k (words filtered) = length (words filtered))
              then length (words filtered)
              else S (leading k (words filtered)))%nat as Hjn
    by (case_decide; lia).
  rewrite length_take, Nat.min_l by (case_decide; lia).
  rewrite Nat.mod_small by done.
  apply subscript_Some. by rewrite lookup_take_lt.
Qed.

Lemma word_can_be_drawn_witness :
  ∃ self filtered n rnd weight,
    run [Filtered; Compared (str "angle") (str "glean")]
      (init true [str "glean"; str "noble"; str "angle"]) = Ok self ∧
    update_word_weights self = Ok filtered ∧
    get_min_weight_count filtered = Ok n ∧
    random_choice rnd (take n (words filtered)) = Ok (str "angle", weight).
Proof.
  destruct (word_can_be_drawn (str "angle") true
              [str "glean"; str "noble"; str "angle"]
              [Filtered; Compared (str "angle") (str "glean")])
    as (self & filtered & n & rnd & weight & Hrun & Hupd & Hn & Hdraw & _).
  - split; [reflexivity|]. repeat constructor; unfold is_letter; vm_compute; lia.
  - do 2 apply list_elem_of_further. apply list_elem_of_here.
  - repeat (apply List.Forall_cons;
      [split; [reflexivity|];
       repeat constructor; unfold is_letter; vm_compute; lia|]).
    apply List.Forall_nil.
  - apply List.Forall_cons; [exact I|].
    apply List.Forall_cons; [|apply List.Forall_nil].
    split; [reflexivity|]. apply is_word_letter5. split; [reflexivity|].
    repeat constructor; unfold is_letter; vm_compute; lia.
  - exists self, filtered, n, rnd, weight. repeat split; assumption.
Defined.
